(** * The publish/subscribe engine of the appsec helper (src/helper/engine.cpp)

    A shallow embedding of [dds::engine::subscribe] and
    [dds::engine::context::publish], and of the detection subscriber the
    engine's test-suite exercises, together with the properties the
    specification states about them. *)

From stdpp Require Import gmap strings list fin_maps sorting.

Local Open Scope string_scope.
Local Open Scope list_scope.

Set Warnings "-register-all,-clear-no-such-hyp".

(** ** Published data *)

(** Modelled from the spec: parameter.hpp is not part of the sources; the
    parameter tree is "a recursive, tagged value (map / array / scalar)".  A
    map is kept as the sequence of its (key, value) entries, which is what
    [data.size()] and [data[i].key()] walk over. *)
Inductive parameter :=
| p_invalid
| p_bool (b : bool)
| p_signed (z : Z)
| p_string (s : string)
| p_array (items : list parameter)
| p_map (entries : list (string * parameter)).

(** Modelled from the spec: [is_map], the tag test of a parameter. *)
Definition is_map (p : parameter) : bool :=
  match p with p_map _ => true | _ => false end.

(** The entries [data[0]] .. [data[data.size() - 1]] of a container. *)
Definition entries_of (p : parameter) : list (string * parameter) :=
  match p with
  | p_map entries => entries
  | p_array items => map (fun v => ("", v)) items
  | _ => []
  end.

(** ** Results and exceptions *)

(** Modelled from the spec: result.hpp is not part of the sources; a Result
    is "a severity value (ordered: none < monitor < block) plus opaque
    serialized match/event data", and a default-constructed one has the
    lowest severity and no data. *)
Inductive code := ok | record | block.

(** Modelled from the spec: the numeric value of a severity. *)
Definition code_value (c : code) : N :=
  match c with ok => 0 | record => 1 | block => 2 end.

(** Modelled from the spec: the Result, a severity and the serialized match
    data. *)
Record result := { value : code; data : list string }.

(** Modelled from the spec: [result res;], the lowest severity and no data. *)
Definition result_default : result := {| value := ok; data := [] |}.

(** [a.value > b.value] *)
Definition value_gt (a b : result) : bool :=
  (code_value (value b) <? code_value (value a))%N.

(** Modelled from the spec: exception.hpp is not part of the sources; every
    error of the taxonomy (InvalidInputError, TimeoutError, any other
    subscriber failure) is a [std::exception]. *)
Inductive exception :=
| invalid_object (key what : string)
| timeout_error
| std_exception (what : string).

(** What the logging macros of publish emit. *)
Inductive log_entry :=
| data_pushed (key : string)
| subscriber_failed (e : exception).

(** ** Subscribers and listeners *)

(** A listener is a stateful object; what a call answers may depend on every
    batch it was given before.  Its state is that history. *)
Record listener := {
  history : list (parameter * N);
  call_fn : list (parameter * N) -> parameter -> N -> exception + result;
}.

(** [listener->call(data, timeout)]: an exception or a result, and the
    listener afterwards. *)
Definition call (l : listener) (d : parameter) (timeout : N)
  : (exception + result) * listener :=
  (call_fn l (history l) d timeout,
   {| history := history l ++ [(d, timeout)]; call_fn := call_fn l |}).

(** The capability interface: the addresses a subscriber declares and the
    behaviour of the listeners it hands out. *)
Record subscriber := {
  get_subscriptions : list string;
  listener_fn : list (parameter * N) -> parameter -> N -> exception + result;
}.

(** [sub->get_listener()]: fresh evaluation state. *)
Definition get_listener (s : subscriber) : listener :=
  {| history := []; call_fn := listener_fn s |}.

(** [subscriber::ptr], a shared pointer: the address is the identity that
    [std::set] and [std::map] order and compare, the target is the object
    reached through it. *)
Record subscriber_ptr := { addr : positive; target : subscriber }.

(** [std::set<subscriber::ptr>::insert]: the set is kept as the strictly
    increasing sequence its iteration yields; an address already present is
    not inserted again. *)
Fixpoint set_insert (sub : subscriber_ptr) (s : list subscriber_ptr)
  : list subscriber_ptr :=
  match s with
  | [] => [sub]
  | x :: s' =>
    match (addr sub ?= addr x)%positive with
    | Lt => sub :: s
    | Eq => s
    | Gt => x :: set_insert sub s'
    end
  end.

(** ** The engine *)

Module engine.

(** The address to subscribers registry. *)
Record t := { subscriptions_ : gmap string (list subscriber_ptr) }.

(** An engine nothing has subscribed to yet. *)
Definition empty : t := {| subscriptions_ := ∅ |}.

(** One round of the loop of [engine::subscribe]. *)
Definition subscribe_addr (sub : subscriber_ptr)
    (subs : gmap string (list subscriber_ptr)) (a : string)
  : gmap string (list subscriber_ptr) :=
  match subs !! a with
  | None => <[a := [sub]]> subs
  | Some v => <[a := v ++ [sub]]> subs
  end.

(** [engine::subscribe]: [sub] is appended under every address it
    declares. *)
Definition subscribe (e : t) (sub : subscriber_ptr) : t :=
  {| subscriptions_ :=
       fold_left (subscribe_addr sub) (get_subscriptions (target sub))
                 (subscriptions_ e) |}.

Module context.

(** The per-request context: the engine's table it refers to, the listener
    cache keyed by subscriber identity, and the batches it owns. *)
Record t := {
  subscriptions_ : gmap string (list subscriber_ptr);
  listeners_ : gmap positive listener;
  prev_published_params_ : list parameter;
}.

(** The first loop of publish: the subscribers of every top-level key,
    deduplicated. *)
Fixpoint collect (subs : gmap string (list subscriber_ptr))
    (entries : list (string * parameter))
    (sub_set : list subscriber_ptr) : list subscriber_ptr :=
  match entries with
  | [] => sub_set
  | (key, _) :: rest =>
    match subs !! key with
    | None => collect subs rest sub_set
    | Some v =>
      collect subs rest (fold_left (fun s sub => set_insert sub s) v sub_set)
    end
  end.

(** [listeners_.find(sub)], and the listener [emplace] adds when there is
    none. *)
Definition find_or_create (listeners : gmap positive listener)
    (sub : subscriber_ptr) : listener :=
  match listeners !! addr sub with
  | Some l => l
  | None => get_listener (target sub)
  end.

(** [if (call_res.value > res.value) res = std::move(call_res)] *)
Definition keep (res call_res : result) : result :=
  if value_gt call_res res then call_res else res.

(** The second loop of publish, threading the listener cache, the result
    kept so far and the diagnostics logged. *)
Fixpoint dispatch (sub_set : list subscriber_ptr) (d : parameter)
    (timeout : N) (listeners : gmap positive listener) (res : result)
    (log : list log_entry)
  : result * gmap positive listener * list log_entry :=
  match sub_set with
  | [] => (res, listeners, log)
  | sub :: rest =>
    let '(outcome, l') := call (find_or_create listeners sub) d timeout in
    let listeners' := <[addr sub := l']> listeners in
    match outcome with
    | inr call_res =>
      dispatch rest d timeout listeners' (keep res call_res) log
    | inl e =>
      dispatch rest d timeout listeners' res (log ++ [subscriber_failed e])
    end
  end.

(** [engine::context::publish]: the outcome (the exception thrown or the
    result returned), the context afterwards and what was logged. *)
Definition publish (ctx : t) (param : parameter) (timeout : N)
  : (exception + result) * t * list log_entry :=
  let params := prev_published_params_ ctx ++ [param] in
  let d := param in
  if negb (is_map d) then
    (inl (invalid_object "." "not a map"),
     {| subscriptions_ := subscriptions_ ctx;
        listeners_ := listeners_ ctx;
        prev_published_params_ := params |},
     [])
  else
    let sub_set := collect (subscriptions_ ctx) (entries_of d) [] in
    let pushed := map (fun kv => data_pushed (fst kv)) (entries_of d) in
    let '(res, listeners, log) :=
      dispatch sub_set d timeout (listeners_ ctx) result_default pushed in
    (inr res,
     {| subscriptions_ := subscriptions_ ctx;
        listeners_ := listeners;
        prev_published_params_ := params |},
     log).

(** What [param.free()] does to the heap. *)
Inductive heap_event := freed (p : parameter).

(** [engine::context::~context]: every retained batch is freed, the oldest
    first. *)
Definition destructor (ctx : t) : list heap_event :=
  map freed (prev_published_params_ ctx).

End context.

(** Modelled from the spec: engine.hpp is not part of the sources;
    [create_context] "returns a new Context bound to the current
    subscription table". *)
Definition create_context (e : t) : context.t :=
  {| context.subscriptions_ := subscriptions_ e;
     context.listeners_ := ∅;
     context.prev_published_params_ := [] |}.

End engine.

Import engine.

(** ** What one publish observes *)

(** The severity of a result, as a number. *)
Definition severity (r : result) : N := code_value (value r).

(** A result fires when it is above the lowest severity. *)
Definition fires (r : result) : Prop := (0 < severity r)%N.

(** The answer the listener of [sub] gives to this publish, read off the
    listener cache the publish starts from. *)
Definition outcome_of (listeners : gmap positive listener) (d : parameter)
    (timeout : N) (sub : subscriber_ptr) : exception + result :=
  fst (call (context.find_or_create listeners sub) d timeout).

(** The listener of [sub] once this publish has called it. *)
Definition listener_after (listeners : gmap positive listener) (d : parameter)
    (timeout : N) (sub : subscriber_ptr) : listener :=
  snd (call (context.find_or_create listeners sub) d timeout).

(** The results of the calls that returned, in dispatch order. *)
Definition successes (outs : list (exception + result)) : list result :=
  omap (fun o => match o with inr r => Some r | inl _ => None end) outs.

(** The diagnostics of the calls that threw, in dispatch order. *)
Definition failures (outs : list (exception + result)) : list log_entry :=
  omap (fun o => match o with
                 | inl e => Some (subscriber_failed e)
                 | inr _ => None
                 end) outs.

(** The subscribers one publish of [d] dispatches to, in dispatch order. *)
Definition dispatched (ctx : context.t) (d : parameter) : list subscriber_ptr :=
  context.collect (context.subscriptions_ ctx) (entries_of d) [].

(** How many times a listener was called. *)
Definition calls_of (listeners : gmap positive listener) (a : positive) : nat :=
  match listeners !! a with
  | Some l => length (history l)
  | None => 0
  end.

(** The invariant of the subscriber set: strictly increasing addresses. *)
Definition ordered (s : list subscriber_ptr) : Prop :=
  StronglySorted Pos.lt (map addr s).

(** The log lines of the first loop, one per top-level key. *)
Definition pushed (d : parameter) : list log_entry :=
  map (fun kv => data_pushed (fst kv)) (entries_of d).

(** The answers of all the listeners one publish calls, in dispatch
    order. *)
Definition outcomes (ctx : context.t) (d : parameter) (timeout : N)
  : list (exception + result) :=
  map (outcome_of (context.listeners_ ctx) d timeout) (dispatched ctx d).

(** How many times the address of [sub] is registered under [a]. *)
Definition registrations (subs : gmap string (list subscriber_ptr))
    (a : string) (sub : subscriber_ptr) : nat :=
  match subs !! a with
  | Some v => length (filter (fun x => addr x = addr sub) v)
  | None => 0
  end.

(** ** The detection subscriber (WAF instance)

    The subscriber itself (subscriber/waf.cpp) is not part of the sources;
    only its test-suite is.  Everything in this module is modelled from the
    specification, sections 3, 4.3 and 4.4, with the constants the
    test-suite shows. *)

Module waf.

(** Modelled from the spec: a compiled regular expression of the external
    matching library, "consumed as opaque": the set of strings it finds a
    match in. *)
Definition regex : Type := string -> bool.


(** Modelled from the spec: the first entry of a map under a key. *)
Definition map_get (k : string) (p : parameter) : option parameter :=
  match p with
  | p_map entries =>
    (fun found => found.2.2) <$> list_find (fun kv => kv.1 = k) entries
  | _ => None
  end.

(** Modelled from the spec: one step of the path from an address to a
    matched value. *)
Inductive path_elem :=
| key (k : string)
| idx (i : nat).

(** Modelled from the spec: a leaf seen from one level up. *)
Definition under (e : path_elem) (leaf : list path_elem * string)
  : list path_elem * string :=
  (e :: leaf.1, leaf.2).

(** Modelled from the spec: the string leaves of a parameter tree, each with
    the path that leads to it, in document order. *)
Fixpoint leaves (p : parameter) : list (list path_elem * string) :=
  match p with
  | p_string s => [([], s)]
  | p_map entries =>
    (fix go (es : list (string * parameter)) :=
       match es with
       | [] => []
       | (k, v) :: es' => map (under (key k)) (leaves v) ++ go es'
       end) entries
  | p_array items =>
    (fix go (i : nat) (xs : list parameter) :=
       match xs with
       | [] => []
       | v :: xs' => map (under (idx i)) (leaves v) ++ go (S i) xs'
       end) 0%nat items
  | _ => []
  end.

(** Modelled from the spec: the operators the rules of the test-suite use. *)
Inductive operator :=
| match_regex (re : regex)
| ip_match (data_id : string).

(** Modelled from the spec: a condition of a rule: an operator applied to what
    is found under an address and a key path. *)
Record condition := {
  op : operator;
  address : string;
  key_path : list string;
}.

(** Modelled from the spec: a rule: its id, its conditions and the action
    identifiers of [on_match]. *)
Record rule := {
  id : string;
  conditions : list condition;
  on_match : list string;
}.

(** Modelled from the spec: an entry of the action table,
    [{"id": .., "type": .., "parameters": {..}}]. *)
Record action_entry := {
  entry_type : string;
  entry_parameters : gmap string string;
}.

(** Modelled from the spec: "type: enum{block, redirect, custom-id,
    invalid}". *)
Inductive action_type := block_action | redirect | custom_id | invalid.

(** Modelled from the spec: "Action: {type, parameters:
    mapping<string,string>}". *)
Record action := {
  type : action_type;
  parameters : gmap string string;
}.

(** Modelled from the spec: "obfuscation policy (key/value regex)", each of
    the two optional. *)
Record obfuscation := {
  key_regex : option regex;
  value_regex : option regex;
}.

(** Modelled from the spec: the ruleset snapshot a subscriber instance
    holds: rules, rule data by id, the action table and the obfuscation
    policy. *)
Record instance := {
  rules : list rule;
  rules_data : gmap string (list parameter);
  action_table : gmap string action_entry;
  obfuscator : obfuscation;
}.

(** *** Actions *)

(** Modelled from the spec: the action types that are recognized. *)
Definition action_type_of (t : string) : action_type :=
  if decide (t = "block_request") then block_action
  else if decide (t = "redirect_request") then redirect
  else invalid.

(** Modelled from the spec: the hard-coded defaults, "status_code=403,
    grpc_status_code=10, type=auto" for a block. *)
Definition default_parameters (t : action_type) : gmap string string :=
  match t with
  | block_action =>
    <["status_code" := "403"]>
      (<["grpc_status_code" := "10"]> (<["type" := "auto"]> ∅))
  | _ => ∅
  end.

(** Modelled from the spec: "when a rule's action entry supplies its own
    parameters they override defaults per-key; unspecified keys keep the
    default". *)
Definition merge_parameters (t : action_type) (given : gmap string string)
  : gmap string string :=
  given ∪ default_parameters t.

(** Modelled from the spec: an [on_match] identifier is resolved against the
    action table; "block" is built in; anything else is an invalid action
    that keeps its raw parameters. *)
Definition resolve_action (tbl : gmap string action_entry) (name : string)
  : action :=
  match tbl !! name with
  | Some e =>
    let t := action_type_of (entry_type e) in
    {| type := t; parameters := merge_parameters t (entry_parameters e) |}
  | None =>
    if decide (name = "block")
    then {| type := block_action;
            parameters := merge_parameters block_action ∅ |}
    else {| type := invalid; parameters := ∅ |}
  end.

(** Modelled from the spec: equality of action types. *)
Definition same_type (a b : action_type) : bool :=
  match a, b with
  | block_action, block_action | redirect, redirect
  | custom_id, custom_id | invalid, invalid => true
  | _, _ => false
  end.

(** Modelled from the spec: the action set is "deduplicated by resolved
    type". *)
Fixpoint add_action (a : action) (acc : list action) : list action :=
  match acc with
  | [] => [a]
  | b :: acc' =>
    if same_type (type a) (type b) then acc else b :: add_action a acc'
  end.

(** *** Rule data *)

(** Modelled from the spec: an unsigned decimal numeral. *)
Definition digit_of (c : Ascii.ascii) : option Z :=
  let n := Z.of_nat (Ascii.nat_of_ascii c) in
  if ((48 <=? n) && (n <=? 57))%Z then Some (n - 48)%Z else None.

(** Modelled from the spec: the digits of a numeral, most significant
    first. *)
Fixpoint parse_decimal_from (acc : Z) (s : string) : option Z :=
  match s with
  | EmptyString => Some acc
  | String c s' =>
    match digit_of c with
    | Some dg => parse_decimal_from (10 * acc + dg)%Z s'
    | None => None
    end
  end.

(** Modelled from the spec: a non-empty string of digits. *)
Definition parse_decimal (s : string) : option Z :=
  match s with
  | EmptyString => None
  | _ => parse_decimal_from 0 s
  end.

(** Modelled from the spec: the expiration of a rule-data item
    [{"value": .., "expiration": ..}], a number or a numeral. *)
Definition read_expiration (p : parameter) : option Z :=
  match p with
  | p_signed z => Some z
  | p_string s => parse_decimal s
  | _ => None
  end.

(** Modelled from the spec: the expiration field of an item. *)
Definition expiration_of (item : parameter) : option Z :=
  map_get "expiration" item ≫= read_expiration.

(** Modelled from the spec: an item blocks a value when it names it and
    expires in the future. *)
Definition item_matches (now : Z) (v : string) (item : parameter) : bool :=
  match map_get "value" item, expiration_of item with
  | Some (p_string w), Some e => bool_decide (w = v) && (now <? e)%Z
  | _, _ => false
  end.

(** *** Evaluation *)

(** Modelled from the spec: what an operator accepts: a string the regex
    matches, or an address listed, and not expired, in the rule data. *)
Definition accepts (data : gmap string (list parameter)) (now : Z)
    (o : operator) (v : string) : bool :=
  match o with
  | match_regex re => re v
  | ip_match data_id =>
    match data !! data_id with
    | Some items => existsb (item_matches now v) items
    | None => false
    end
  end.

(** Modelled from the spec: the operator's name, as serialized. *)
Definition operator_name (o : operator) : string :=
  match o with
  | match_regex _ => "match_regex"
  | ip_match _ => "ip_match"
  end.

(** Modelled from the spec: following a key path into a tree. *)
Fixpoint descend (path : list string) (p : parameter) : option parameter :=
  match path with
  | [] => Some p
  | k :: path' => map_get k p ≫= descend path'
  end.

(** Modelled from the spec: a match as found, before obfuscation, and as
    serialized into the Event. *)
Record rule_match := {
  match_operator : string;
  match_address : string;
  match_key_path : list path_elem;
  match_value : string;
}.

(** Modelled from the spec: a serialized rule-match fragment: the rule and the
    matches of its conditions. *)
Record fragment := {
  rule_id : string;
  rule_matches : list rule_match;
}.

(** Modelled from the spec: a condition matches when some string under its
    input is accepted by its operator; the first such string is reported. *)
Definition eval_condition (inst : instance) (now : Z) (d : parameter)
    (c : condition) : option rule_match :=
  input ← map_get (address c) d ≫= descend (key_path c);
  leaf ← snd <$> list_find (fun l => accepts (rules_data inst) now (op c) l.2
                                     = true) (leaves input);
  Some {| match_operator := operator_name (op c);
          match_address := address c;
          match_key_path := map key (key_path c) ++ leaf.1;
          match_value := leaf.2 |}.

(** Modelled from the spec: "a rule fires when all its conditions match the
    current batch". *)
Definition eval_rule (inst : instance) (now : Z) (d : parameter) (r : rule)
  : option (list rule_match) :=
  mapM (eval_condition inst now d) (conditions r).

(** Modelled from the spec: the rules that fire on a batch, each with its
    matches. *)
Definition firing (inst : instance) (now : Z) (d : parameter)
  : list (rule * list rule_match) :=
  omap (fun r => (fun ms => (r, ms)) <$> eval_rule inst now d r) (rules inst).

(** *** Obfuscation *)

(** Modelled from the spec: the "fixed redaction placeholder"; the test-suite
    shows its text. *)
Definition redacted : string := "<Redacted>".

(** Modelled from the spec: a key on the path to the value matches the key
    regex. *)
Definition key_sensitive (o : obfuscation) (path : list path_elem) : bool :=
  match key_regex o with
  | Some re =>
    existsb (fun e => match e with key k => re k | idx _ => false end) path
  | None => false
  end.

(** Modelled from the spec: the value matches the value regex. *)
Definition value_sensitive (o : obfuscation) (v : string) : bool :=
  match value_regex o with
  | Some re => re v
  | None => false
  end.

(** Modelled from the spec: whether a match is to be redacted. *)
Definition sensitive (o : obfuscation) (m : rule_match) : bool :=
  key_sensitive o (match_key_path m) || value_sensitive o (match_value m).

(** Modelled from the spec: "if the originating key or the value itself
    matches the subscriber's configured obfuscation regex(es), the value is
    replaced with a fixed redaction placeholder". *)
Definition obfuscate (o : obfuscation) (m : rule_match) : rule_match :=
  if sensitive o m
  then {| match_operator := match_operator m;
          match_address := match_address m;
          match_key_path := match_key_path m;
          match_value := redacted |}
  else m.

(** *** The listener *)

(** Modelled from the spec: "Event: list of serialized rule-match fragments plus
    a list of Actions". *)
Record event := {
  data : list fragment;
  actions : list action;
}.

(** Modelled from the spec: the Event of one evaluation: a fragment per firing
    rule, with its matches obfuscated, and the resolved actions of the firing
    rules. *)
Definition event_of (inst : instance) (now : Z) (d : parameter) : event :=
  let fired := firing inst now d in
  {| data :=
       map (fun rm => {| rule_id := id rm.1;
                         rule_matches := map (obfuscate (obfuscator inst))
                                             rm.2 |}) fired;
     actions :=
       fold_left (fun acc name => add_action
                                    (resolve_action (action_table inst) name) acc)
                 (concat (map (fun rm => on_match rm.1) fired)) [] |}.

(** Modelled from the spec: the severity of an Event: blocking when an action
    blocks or redirects, monitoring when a rule fired, none otherwise. *)
Definition severity_of (e : event) : code :=
  if existsb (fun a => same_type (type a) block_action
                       || same_type (type a) redirect) (actions e)
  then block
  else match data e with [] => ok | _ => record end.

(** Modelled from the spec: [Listener.call(data, timeout)]: fails with the
    invalid-object error when the data is not a map, with the timeout error
    when the budget is zero, and otherwise evaluates the batch. *)
Definition call (inst : instance) (now : Z) (d : parameter) (timeout : N)
  : exception + (code * event) :=
  if negb (is_map d) then inl (invalid_object "." "not a map")
  else if (timeout =? 0)%N then inl timeout_error
  else let e := event_of inst now d in inr (severity_of e, e).

(** *** Update *)






(** *** The rulesets of the test-suite *)










End waf.

(** ** Sample subscribers and batches *)

(** A subscriber whose listener always answers [r]. *)
Definition answering (addresses : list string) (r : result) : subscriber :=
  {| get_subscriptions := addresses; listener_fn := fun _ _ _ => inr r |}.

(** A subscriber whose listener always throws [e]. *)
Definition throwing (addresses : list string) (e : exception) : subscriber :=
  {| get_subscriptions := addresses; listener_fn := fun _ _ _ => inl e |}.

(** A monitoring and a blocking result. *)
Definition monitor_result : result :=
  {| value := record; data := ["rule1"] |}.

Definition block_result : result :=
  {| value := block; data := ["blk-001-001"] |}.

(** Three subscribers at three addresses in memory: one that monitors, one
    that blocks, one whose listener times out. *)
Definition sub_monitor : subscriber_ptr :=
  {| addr := 1; target := answering ["arg1"] monitor_result |}.

Definition sub_block : subscriber_ptr :=
  {| addr := 2; target := answering ["arg1"; "arg2"] block_result |}.

Definition sub_timeout : subscriber_ptr :=
  {| addr := 3; target := throwing ["arg1"] timeout_error |}.

(** A second monitoring subscriber, later in the set, with its own data. *)
Definition late_result : result :=
  {| value := record; data := ["rule2"] |}.

Definition sub_monitor_late : subscriber_ptr :=
  {| addr := 5; target := answering ["arg1"] late_result |}.

(** A batch with the key the sample subscribers declare, and one with a key
    nobody declares. *)
Definition batch : parameter :=
  p_map [("arg1", p_string "string 1"); ("other", p_signed 7)].

Definition unrelated_batch : parameter :=
  p_map [("other", p_signed 7)].

(** Fresh contexts of engines with some of the sample subscribers. *)
Definition ctx_two : context.t :=
  create_context (subscribe (subscribe empty sub_block) sub_monitor).

Definition ctx_timeout : context.t :=
  create_context (subscribe (subscribe empty sub_timeout) sub_monitor).

Definition ctx_only_timeout : context.t :=
  create_context (subscribe empty sub_timeout).

Definition ctx_tie : context.t :=
  create_context (subscribe (subscribe empty sub_monitor_late) sub_monitor).

Definition ctx_twice : context.t :=
  create_context (subscribe (subscribe empty sub_monitor) sub_monitor).

(** ** A request: several publishes on one context *)

(** The host publishes the batches of a request one after the other on the
    same context; the outcomes, the context at the end and the whole log. *)
Fixpoint publish_all (ctx : context.t) (batches : list (parameter * N))
  : list (exception + result) * context.t * list log_entry :=
  match batches with
  | [] => ([], ctx, [])
  | (param, timeout) :: rest =>
    let '(outcome, ctx', log) := context.publish ctx param timeout in
    let '(outs, ctx'', log') := publish_all ctx' rest in
    (outcome :: outs, ctx'', log ++ log')
  end.

(** The address [a] belongs to a subscriber registered under one of the
    keys. *)
Definition registered_under (subs : gmap string (list subscriber_ptr))
    (keys : list string) (a : positive) : Prop :=
  exists key v, key ∈ keys /\ subs !! key = Some v /\ a ∈ map addr v.

(** The top-level keys of a batch, in order. *)
Definition keys_of (d : parameter) : list string := map fst (entries_of d).

(** A subscriber whose listener monitors the first batch it is given and
    blocks from the second on. *)
Definition escalating (addresses : list string) : subscriber :=
  {| get_subscriptions := addresses;
     listener_fn := fun calls _ _ =>
                      match calls with
                      | [] => inr monitor_result
                      | _ => inr block_result
                      end |}.

Definition sub_escalating : subscriber_ptr :=
  {| addr := 7; target := escalating ["arg1"] |}.

Definition ctx_escalating : context.t :=
  create_context (subscribe empty sub_escalating).

(** [batch] with its two entries swapped. *)
Definition batch_swapped : parameter :=
  p_map [("other", p_signed 7); ("arg1", p_string "string 1")].

(** [ctx_two], registered in the other order. *)
Definition ctx_two_swapped : context.t :=
  create_context (subscribe (subscribe empty sub_monitor) sub_block).

(** ** The embedding SAPI (zend_abstract_interface/zai_sapi/php5/zai_sapi.c)

    The file drives PHP through its SAPI layer.  What it owns is the static
    [ini_entries_len]; everything else it does is a call into PHP, TSRM or
    the sibling units zai_sapi_ini and zai_sapi_io, or a write to a field of
    PHP's globals or of [zai_module].  Those are recorded, in order, as
    effects; what a call returns is read from the environment. *)

Module zai_sapi.

Inductive effect :=
| tsrm_startup
| ts_resource
| tsrm_shutdown
| sapi_startup
| sapi_shutdown
| set_option_no_chdir
| ini_entries_alloc (src : string)
| ini_entries_realloc_append (len : Z) (key value : string)
| ini_entries_free
| set_php_ini_ignore (v : Z)
| set_phpinfo_as_text (v : Z)
| set_additional_functions_null
| php_module_startup
| php_module_shutdown
| php_request_startup
| php_request_shutdown
| set_headers_sent (v : Z)
| set_no_headers (v : Z)
| php_register_variable (name value : string).

#[global] Instance effect_eq_dec : EqDecision effect.
Proof. solve_decision. Defined.

(** Zend's [SUCCESS] and [FAILURE]; its headers are not part of the
    sources. *)
Definition SUCCESS : Z := 0.
Definition FAILURE : Z := -1.

(** The C integer types of the file, on an LP64 platform: a value of the
    type is the wrapped representative. *)
Definition to_int (z : Z) : Z := (z + 2 ^ 31) mod 2 ^ 32 - 2 ^ 31.
Definition to_ssize_t (z : Z) : Z := (z + 2 ^ 63) mod 2 ^ 64 - 2 ^ 63.
Definition to_size_t (z : Z) : Z := z mod 2 ^ 64.

Definition newline : string := String (Ascii.ascii_of_nat 10) EmptyString.
Definition nul : string := String (Ascii.ascii_of_nat 0) EmptyString.

(** The macro [DEFAULT_INI], with the NUL it spells out. *)
Definition DEFAULT_INI : string :=
  ("html_errors=0" +:+ newline +:+ "implicit_flush=1" +:+ newline
   +:+ "output_buffering=0" +:+ newline +:+ nul)%string.

(** The static [ini_entries_len] and the effects so far. *)
Record state := {
  ini_entries_len : Z;
  trace : list effect;
}.

(** [static ssize_t ini_entries_len = -1;] *)
Definition initial : state := {| ini_entries_len := -1; trace := [] |}.

Definition M (A : Type) : Type := state -> A * state.

Definition ret {A} (x : A) : M A := fun st => (x, st).

Definition bind {A B} (m : M A) (k : A -> M B) : M B :=
  fun st => let '(x, st') := m st in k x st'.

Notation "x <- m ;; k" := (bind m (fun x => k))
  (at level 100, m at next level, right associativity).
Notation "m ;;; k" := (bind m (fun _ => k))
  (at level 100, right associativity).

(** An effect that returns nothing the file looks at. *)
Definition perform (e : effect) : M unit :=
  fun st => (tt, {| ini_entries_len := ini_entries_len st;
                    trace := trace st ++ [e] |}).

Definition get_ini_entries_len : M Z := fun st => (ini_entries_len st, st).

Definition set_ini_entries_len (len : Z) : M unit :=
  fun st => (tt, {| ini_entries_len := len; trace := trace st |}).

Definition when (b : bool) (m : M unit) : M unit :=
  if b then m else ret tt.

Section WithPHP.

(** Whether the file is compiled with [ZTS] defined. *)
Variable ZTS : bool.

(** What the call that ends a trace returns: PHP and the sibling units are
    arbitrary, deterministic in everything that has happened so far. *)
Variable answer : list effect -> Z.

(** A call whose result the file looks at, at the C type it is declared
    with. *)
Definition extern (e : effect) (ctype : Z -> Z) : M Z :=
  fun st =>
    let tr := trace st ++ [e] in
    (ctype (answer tr), {| ini_entries_len := ini_entries_len st;
                           trace := tr |}).

Definition zs_startup : M Z := extern php_module_startup to_int.

Definition zai_sapi_append_system_ini_entry (key value : string) : M bool :=
  current <- get_ini_entries_len ;;
  len <- extern (ini_entries_realloc_append (to_size_t current) key value)
                to_ssize_t ;;
  if (len <=? current)%Z then
    perform ini_entries_free ;;;
    ret false
  else
    set_ini_entries_len len ;;;
    ret true.

Definition zs_tsrm_startup : M unit :=
  perform tsrm_startup ;;;
  perform ts_resource.

Definition zai_sapi_sinit : M bool :=
  when ZTS zs_tsrm_startup ;;;
  perform sapi_startup ;;;
  perform set_option_no_chdir ;;;
  len <- extern (ini_entries_alloc DEFAULT_INI) to_ssize_t ;;
  set_ini_entries_len len ;;;
  if (len =? -1)%Z then ret false
  else
    perform (set_php_ini_ignore 1) ;;;
    perform (set_phpinfo_as_text 1) ;;;
    perform set_additional_functions_null ;;;
    ret true.

Definition zai_sapi_sshutdown : M unit :=
  perform sapi_shutdown ;;;
  when ZTS (perform tsrm_shutdown) ;;;
  perform ini_entries_free.

Definition zai_sapi_minit : M bool :=
  started <- zs_startup ;;
  if (started =? FAILURE)%Z then
    zai_sapi_sshutdown ;;;
    ret false
  else ret true.

Definition zai_sapi_mshutdown : M unit := perform php_module_shutdown.

Definition zai_sapi_rinit : M bool :=
  started <- extern php_request_startup to_int ;;
  if (started =? FAILURE)%Z then ret false
  else
    perform (set_headers_sent 1) ;;;
    perform (set_no_headers 1) ;;;
    perform (php_register_variable "PHP_SELF" "-") ;;;
    ret true.

Definition zai_sapi_rshutdown : M unit := perform php_request_shutdown.

(** [zai_sapi_sinit() && zai_sapi_minit() && zai_sapi_rinit()] *)
Definition zai_sapi_spinup : M bool :=
  s <- zai_sapi_sinit ;;
  if s then
    m <- zai_sapi_minit ;;
    if m then zai_sapi_rinit else ret false
  else ret false.

Definition zai_sapi_spindown : M unit :=
  zai_sapi_rshutdown ;;;
  zai_sapi_mshutdown ;;;
  zai_sapi_sshutdown.

(** A host appending several system INI entries, one after the other. *)
Fixpoint append_all (entries : list (string * string)) : M (list bool) :=
  match entries with
  | [] => ret []
  | (key, value) :: rest =>
    appended <- zai_sapi_append_system_ini_entry key value ;;
    others <- append_all rest ;;
    ret (appended :: others)
  end.

(** The effects of the phases of [zai_sapi_spinup]. *)
Definition sinit_effects : list effect :=
  (if ZTS then [tsrm_startup; ts_resource] else [])
  ++ [sapi_startup; set_option_no_chdir; ini_entries_alloc DEFAULT_INI].

Definition configure_effects : list effect :=
  [set_php_ini_ignore 1; set_phpinfo_as_text 1;
   set_additional_functions_null].

Definition sshutdown_effects : list effect :=
  [sapi_shutdown] ++ (if ZTS then [tsrm_shutdown] else [])
  ++ [ini_entries_free].

Definition rinit_effects : list effect :=
  [set_headers_sent 1; set_no_headers 1;
   php_register_variable "PHP_SELF" "-"].

End WithPHP.

(** A PHP in which everything succeeds, and one whose module startup
    fails; and a reallocation that grows the entries by the length of the
    key and the value, two separators included. *)
Definition php_succeeds (tr : list effect) : Z :=
  match last tr with
  | Some (ini_entries_alloc src) => Z.of_nat (String.length src)
  | Some (ini_entries_realloc_append len key value) =>
    len + Z.of_nat (String.length key + String.length value + 2)
  | _ => SUCCESS
  end.

Definition php_module_fails (tr : list effect) : Z :=
  match last tr with
  | Some php_module_startup => FAILURE
  | _ => php_succeeds tr
  end.

Definition realloc_fails_on (bad : string) (tr : list effect) : Z :=
  match last tr with
  | Some (ini_entries_realloc_append len key value) =>
    if decide (key = bad) then -1 else php_succeeds tr
  | _ => php_succeeds tr
  end.

End zai_sapi.

(** * Properties *)

(** ** The subscriber set *)

Lemma set_insert_addr sub s a :
  a ∈ map addr (set_insert sub s) <-> a = addr sub \/ a ∈ map addr s.
Proof.
  induction s as [|x s IH]; simpl.
  - rewrite list_elem_of_singleton, elem_of_nil. tauto.
  - destruct (Pos.compare_spec (addr sub) (addr x)) as [E|L|G]; simpl.
    + rewrite E, elem_of_cons. tauto.
    + rewrite !elem_of_cons. tauto.
    + rewrite !elem_of_cons, IH. tauto.
Qed.

Lemma set_insert_ordered sub s : ordered s -> ordered (set_insert sub s).
Proof.
  unfold ordered. induction s as [|x s IH]; simpl; intros Hs.
  - repeat constructor.
  - apply StronglySorted_inv in Hs as [Hs Hx].
    destruct (Pos.compare_spec (addr sub) (addr x)) as [E|L|G]; simpl.
    + by constructor.
    + constructor; [by constructor|].
      constructor; [done|].
      eapply Forall_impl; [exact Hx|]. intros y Hy. simpl in Hy. lia.
    + constructor; [by apply IH|].
      apply list.Forall_forall. intros y Hy.
      apply set_insert_addr in Hy as [->|Hy]; [lia|].
      rewrite list.Forall_forall in Hx. by apply Hx.
Qed.

Lemma insert_all_ordered v s :
  ordered s -> ordered (fold_left (fun s sub => set_insert sub s) v s).
Proof.
  revert s. induction v as [|x v IH]; simpl; intros s Hs; [done|].
  by apply IH, set_insert_ordered.
Qed.

Lemma insert_all_addr v s a :
  a ∈ map addr (fold_left (fun s sub => set_insert sub s) v s)
  <-> a ∈ map addr v \/ a ∈ map addr s.
Proof.
  revert s. induction v as [|x v IH]; simpl; intros s.
  - set_solver.
  - rewrite IH, set_insert_addr, elem_of_cons. tauto.
Qed.

Lemma collect_ordered subs entries s :
  ordered s -> ordered (context.collect subs entries s).
Proof.
  revert s. induction entries as [|[key v] rest IH]; simpl; intros s Hs.
  - done.
  - destruct (subs !! key); [by apply IH, insert_all_ordered | by apply IH].
Qed.

Lemma ordered_NoDup s : ordered s -> NoDup (map addr s).
Proof.
  unfold ordered. induction 1 as [|a l _ IH Ha]; constructor; [|done].
  intros Hin. rewrite list.Forall_forall in Ha.
  apply Ha in Hin. lia.
Qed.

Lemma dispatched_NoDup ctx d : NoDup (map addr (dispatched ctx d)).
Proof. apply ordered_NoDup, collect_ordered. constructor. Qed.

(** A subscriber is dispatched to exactly when its address is registered
    under one of the published keys. *)
Lemma collect_addr subs entries s a :
  a ∈ map addr (context.collect subs entries s)
  <-> a ∈ map addr s
      \/ exists key v, key ∈ map fst entries /\ subs !! key = Some v
                       /\ a ∈ map addr v.
Proof.
  revert s. induction entries as [|[key p] rest IH]; simpl; intros s.
  - split; [by left|]. intros [H|(k & v & Hk & _)]; [done|].
    by apply elem_of_nil in Hk.
  - destruct (subs !! key) as [v|] eqn:Hkey; rewrite IH.
    + rewrite insert_all_addr. split.
      * intros [[H|H]|(k & w & Hk & Hw & Ha)].
        -- right. exists key, v. set_solver.
        -- by left.
        -- right. exists k, w. set_solver.
      * intros [H|(k & w & Hk & Hw & Ha)]; [tauto|].
        apply elem_of_cons in Hk as [->|Hk].
        -- left. left. congruence.
        -- right. eauto.
    + split.
      * intros [H|(k & w & Hk & Hw & Ha)]; [by left|].
        right. exists k, w. set_solver.
      * intros [H|(k & w & Hk & Hw & Ha)]; [by left|].
        apply elem_of_cons in Hk as [->|Hk]; [congruence|].
        right. eauto.
Qed.

(** ** The aggregation step *)

Lemma keep_cases res r :
  (context.keep res r = r /\ (severity res < severity r)%N)
  \/ (context.keep res r = res /\ (severity r <= severity res)%N).
Proof.
  unfold context.keep, value_gt, severity.
  destruct (N.ltb_spec (code_value (value res)) (code_value (value r)));
    [left | right]; split; done || lia.
Qed.

Lemma fold_keep_mono rs res :
  (severity res <= severity (fold_left context.keep rs res))%N.
Proof.
  revert res. induction rs as [|r rs IH]; cbn [fold_left]; intros res; [lia|].
  specialize (IH (context.keep res r)).
  destruct (keep_cases res r) as [[Hk ?]|[Hk ?]]; rewrite Hk in IH |- *; lia.
Qed.

Lemma fold_keep_highest rs res :
  Forall (fun r => (severity r <= severity (fold_left context.keep rs res))%N)
         rs.
Proof.
  revert res.
  induction rs as [|r rs IH]; cbn [fold_left]; intros res; constructor.
  - pose proof (fold_keep_mono rs (context.keep res r)) as Hm.
    destruct (keep_cases res r) as [[Hk ?]|[Hk ?]]; rewrite Hk in *; lia.
  - apply IH.
Qed.

Lemma fold_keep_below rs res :
  Forall (fun r => (severity r <= severity res)%N) rs ->
  fold_left context.keep rs res = res.
Proof.
  revert res.
  induction rs as [|r rs IH]; cbn [fold_left]; intros res Hrs; [done|].
  apply Forall_cons in Hrs as [Hr Hrs].
  destruct (keep_cases res r) as [[_ ?]|[-> _]]; [lia|]. by apply IH.
Qed.

(** A result strictly above everything before it, and not below anything
    after it, is the one that is kept. *)
Lemma fold_keep_first pre r post res :
  Forall (fun q => (severity q < severity r)%N) pre ->
  (severity res < severity r)%N ->
  Forall (fun q => (severity q <= severity r)%N) post ->
  fold_left context.keep (pre ++ r :: post) res = r.
Proof.
  revert res.
  induction pre as [|p pre IH]; cbn [fold_left app];
    intros res Hpre Hres Hpost.
  - destruct (keep_cases res r) as [[-> _]|[_ ?]]; [|lia].
    by apply fold_keep_below.
  - apply Forall_cons in Hpre as [Hp Hpre].
    apply IH; [done| |done].
    destruct (keep_cases res p) as [[-> _]|[-> _]]; lia.
Qed.

(** Either nothing rose above the starting result, or the kept result is the
    first of the highest severity. *)
Lemma fold_keep_shape rs res :
  (fold_left context.keep rs res = res
   /\ Forall (fun q => (severity q <= severity res)%N) rs)
  \/ (exists pre post,
         rs = pre ++ fold_left context.keep rs res :: post
         /\ (severity res < severity (fold_left context.keep rs res))%N
         /\ Forall (fun q => (severity q
                              < severity (fold_left context.keep rs res))%N) pre
         /\ Forall (fun q => (severity q
                              <= severity (fold_left context.keep rs res))%N)
                   post).
Proof.
  revert res. induction rs as [|r rs IH]; cbn [fold_left]; intros res.
  - left. by split.
  - destruct (keep_cases res r) as [[Hk Hlt]|[Hk Hle]]; rewrite Hk.
    + destruct (IH r) as [[Hr Hall]|(pre & post & Hrs & Hlt' & Hpre & Hpost)].
      * right. exists [], rs. rewrite Hr. simpl. repeat split; auto.
      * right. exists (r :: pre), post. repeat split.
        -- simpl. by rewrite <- Hrs.
        -- lia.
        -- by constructor.
        -- done.
    + destruct (IH res) as [[Hr Hall]|(pre & post & Hrs & Hlt' & Hpre & Hpost)].
      * left. split; [done|]. by constructor.
      * right. exists (r :: pre), post. repeat split.
        -- simpl. by rewrite <- Hrs.
        -- done.
        -- constructor; [lia|done].
        -- done.
Qed.

(** ** The dispatch loop *)

Lemma find_or_create_agree ls ls0 sub :
  ls !! addr sub = ls0 !! addr sub ->
  context.find_or_create ls sub = context.find_or_create ls0 sub.
Proof. unfold context.find_or_create. by intros ->. Qed.

Lemma successes_cons o outs :
  successes (o :: outs)
  = match o with inr r => r :: successes outs | inl _ => successes outs end.
Proof. by destruct o. Qed.

Lemma failures_cons o outs :
  failures (o :: outs)
  = match o with
    | inl e => subscriber_failed e :: failures outs
    | inr _ => failures outs
    end.
Proof. by destruct o. Qed.

(** Over a duplicate-free subscriber set the loop folds [keep] over the
    successful answers and logs the failed ones, every answer being the one
    the listener cache at the start determines. *)
Lemma dispatch_result sub_set d timeout :
  NoDup (map addr sub_set) ->
  forall ls ls0 res log,
    (forall sub, sub ∈ sub_set -> ls !! addr sub = ls0 !! addr sub) ->
    (context.dispatch sub_set d timeout ls res log).1.1
    = fold_left context.keep
        (successes (map (outcome_of ls0 d timeout) sub_set)) res
    /\ (context.dispatch sub_set d timeout ls res log).2
       = log ++ failures (map (outcome_of ls0 d timeout) sub_set).
Proof.
  induction sub_set as [|sub rest IH]; intros Hnd ls ls0 res log Hag.
  - simpl. by rewrite app_nil_r.
  - apply NoDup_cons in Hnd as [Hnotin Hnd].
    cbn [context.dispatch map]. rewrite successes_cons, failures_cons.
    assert (Hout : outcome_of ls0 d timeout sub
                   = (call (context.find_or_create ls sub) d timeout).1).
    { unfold outcome_of.
      by rewrite (find_or_create_agree ls ls0 sub) by (apply Hag; left). }
    rewrite Hout.
    destruct (call (context.find_or_create ls sub) d timeout) as [o l'].
    assert (Hrest : forall s, s ∈ rest ->
              <[addr sub := l']> ls !! addr s = ls0 !! addr s).
    { intros s Hs. rewrite lookup_insert_ne.
      - apply Hag. by right.
      - intros E. apply Hnotin. rewrite E. by apply list_elem_of_fmap_2. }
    cbn [fst]. destruct o as [e|r].
    + destruct (IH Hnd _ ls0 res (log ++ [subscriber_failed e]) Hrest)
        as [H1 H2].
      rewrite H1, H2. by rewrite <- app_assoc.
    + destruct (IH Hnd _ ls0 (context.keep res r) log Hrest) as [H1 H2].
      by rewrite H1, H2.
Qed.

(** Every listener of the set is called exactly once, and no other listener
    is touched. *)
Lemma dispatch_listeners sub_set d timeout :
  NoDup (map addr sub_set) ->
  forall ls ls0 res log,
    (forall sub, sub ∈ sub_set -> ls !! addr sub = ls0 !! addr sub) ->
    (forall sub, sub ∈ sub_set ->
       (context.dispatch sub_set d timeout ls res log).1.2 !! addr sub
       = Some (listener_after ls0 d timeout sub))
    /\ (forall a, a ∉ map addr sub_set ->
          (context.dispatch sub_set d timeout ls res log).1.2 !! a = ls !! a).
Proof.
  induction sub_set as [|sub rest IH]; simpl; intros Hnd ls ls0 res log Hag.
  - split; [|done]. intros sub Hsub. by apply elem_of_nil in Hsub.
  - apply NoDup_cons in Hnd as [Hnotin Hnd].
    set (l := context.find_or_create ls sub).
    set (l' := {| history := history l ++ [(d, timeout)];
                  call_fn := call_fn l |}).
    assert (Hrest : forall s, s ∈ rest ->
              <[addr sub := l']> ls !! addr s = ls0 !! addr s).
    { intros s Hs. rewrite lookup_insert_ne.
      - apply Hag. by right.
      - intros E. apply Hnotin. rewrite E. by apply list_elem_of_fmap_2. }
    assert (Hl' : l' = listener_after ls0 d timeout sub).
    { unfold listener_after, l', l. simpl.
      by rewrite (find_or_create_agree ls ls0 sub) by (apply Hag; left). }
    assert (Hboth : forall r lg,
      (forall s, s ∈ sub :: rest ->
         (context.dispatch rest d timeout (<[addr sub := l']> ls) r lg).1.2
           !! addr s = Some (listener_after ls0 d timeout s))
      /\ (forall a, a ∉ addr sub :: map addr rest ->
            (context.dispatch rest d timeout (<[addr sub := l']> ls) r lg).1.2
              !! a = ls !! a)).
    { intros r lg. destruct (IH Hnd _ ls0 r lg Hrest) as [Hin Hout]. split.
      - intros s Hs. apply elem_of_cons in Hs as [->|Hs]; [|by apply Hin].
        rewrite Hout by done. by rewrite lookup_insert_eq, Hl'.
      - intros a Ha. apply not_elem_of_cons in Ha as [Hne Ha].
        rewrite Hout by done. by rewrite lookup_insert_ne. }
    destruct (call_fn l (history l) d timeout) as [e|r]; apply Hboth.
Qed.

(** ** publish, as a whole *)

Lemma publish_map ctx entries timeout :
  let d := p_map entries in
  exists listeners,
    context.publish ctx d timeout
    = (inr (fold_left context.keep (successes (outcomes ctx d timeout))
                      result_default),
       {| context.subscriptions_ := context.subscriptions_ ctx;
          context.listeners_ := listeners;
          context.prev_published_params_ :=
            context.prev_published_params_ ctx ++ [d] |},
       pushed d ++ failures (outcomes ctx d timeout))
    /\ (forall sub, sub ∈ dispatched ctx d ->
          listeners !! addr sub
          = Some (listener_after (context.listeners_ ctx) d timeout sub))
    /\ (forall a, a ∉ map addr (dispatched ctx d) ->
          listeners !! a = context.listeners_ ctx !! a).
Proof.
  intros d. unfold context.publish. cbn [is_map d negb].
  pose proof (dispatched_NoDup ctx d) as Hnd.
  destruct (dispatch_result _ d timeout Hnd (context.listeners_ ctx)
              (context.listeners_ ctx) result_default (pushed d)
              (fun _ _ => eq_refl)) as [Hres Hlog].
  destruct (dispatch_listeners _ d timeout Hnd (context.listeners_ ctx)
              (context.listeners_ ctx) result_default (pushed d)
              (fun _ _ => eq_refl)) as [Hin Hout].
  unfold dispatched, pushed, d in *. cbn [entries_of] in *.
  destruct (context.dispatch _ _ _ _ _ _) as [[res ls] log].
  cbn [fst snd] in *. exists ls. by rewrite Hres, Hlog.
Qed.

Lemma listener_after_calls ls d timeout sub :
  length (history (listener_after ls d timeout sub))
  = S (calls_of ls (addr sub)).
Proof.
  unfold listener_after, calls_of, context.find_or_create. simpl.
  rewrite length_app. simpl.
  destruct (ls !! addr sub); simpl; lia.
Qed.

Lemma listener_after_history ls d timeout sub :
  history (listener_after ls d timeout sub)
  = history (context.find_or_create ls sub) ++ [(d, timeout)].
Proof. done. Qed.

Lemma failures_elem e outs :
  inl e ∈ outs -> subscriber_failed e ∈ failures outs.
Proof.
  intros H. unfold failures. apply list_elem_of_omap.
  exists (inl e). by split.
Qed.

Lemma successes_elem r outs : r ∈ successes outs <-> inr r ∈ outs.
Proof.
  unfold successes. rewrite list_elem_of_omap. split.
  - intros ([e|r'] & Hin & Heq); [done|]. by inversion Heq; subst.
  - intros H. by exists (inr r).
Qed.

Lemma collect_none subs entries s :
  (forall key, key ∈ map fst entries -> subs !! key = None) ->
  context.collect subs entries s = s.
Proof.
  revert s. induction entries as [|[key v] rest IH]; simpl; intros s H; [done|].
  rewrite (H key) by by left. apply IH. intros k Hk. apply H. by right.
Qed.

(** ** Registration *)

Lemma registrations_subscribe_addr sub subs a b :
  registrations (subscribe_addr sub subs b) a sub
  = registrations subs a sub + (if decide (a = b) then 1 else 0).
Proof.
  unfold registrations, subscribe_addr.
  destruct (decide (a = b)) as [->|Hne].
  - destruct (subs !! b) as [v|]; rewrite lookup_insert_eq.
    + rewrite filter_app, length_app, filter_cons_True by done.
      by rewrite filter_nil.
    + by rewrite filter_cons_True, filter_nil by done.
  - destruct (subs !! b) as [v|]; rewrite lookup_insert_ne by done; lia.
Qed.

Lemma registrations_fold sub addrs subs a :
  registrations (fold_left (subscribe_addr sub) addrs subs) a sub
  = registrations subs a sub + length (filter (fun b => a = b) addrs).
Proof.
  revert subs. induction addrs as [|b addrs IH]; simpl; intros subs.
  - lia.
  - rewrite IH, registrations_subscribe_addr.
    destruct (decide (a = b)).
    + rewrite filter_cons_True by done. simpl. lia.
    + rewrite filter_cons_False by done. lia.
Qed.

Lemma registrations_dispatched ctx d a sub :
  a ∈ map fst (entries_of d) ->
  0 < registrations (context.subscriptions_ ctx) a sub ->
  exists sub', sub' ∈ dispatched ctx d /\ addr sub' = addr sub.
Proof.
  intros Ha Hreg. unfold registrations in Hreg.
  destruct (context.subscriptions_ ctx !! a) as [v|] eqn:Hv; [|lia].
  destruct (filter (fun x => addr x = addr sub) v) as [|x f] eqn:Hf;
    [simpl in Hreg; lia|].
  assert (Hx : x ∈ filter (fun x => addr x = addr sub) v)
    by (rewrite Hf; left).
  apply list_elem_of_filter in Hx as [Hax Hx].
  assert (Hin : addr sub ∈ map addr (dispatched ctx d)).
  { unfold dispatched. apply collect_addr. right. exists a, v.
    repeat split; [done..|]. rewrite <- Hax. by apply list_elem_of_fmap_2. }
  apply list_elem_of_fmap in Hin as (sub' & Heq & Hin). eauto.
Qed.

(** ** The claims about publish *)

(** C1. publish returns the aggregation of the successful listener results
    that keeps the highest severity, the first one met in iteration order
    winning a tie: the result returned is not below any successful result;
    it is the default result when none fires, and otherwise the first of the
    successful results of the highest severity (all before it are strictly
    lower).  In particular, when only one subscriber fires its result is
    returned, and a firing result that is strictly above all before it and
    not below any after it (so, one strictly above all the others) is the
    one returned: a later result of equal severity never replaces it. *)
Theorem publish_keeps_highest_first_seen ctx entries timeout :
  let d := p_map entries in
  let rs := successes (outcomes ctx d timeout) in
  exists res ctx' log,
    context.publish ctx d timeout = (inr res, ctx', log)
    /\ Forall (fun r => (severity r <= severity res)%N) rs
    /\ ((res = result_default /\ Forall (fun r => ~ fires r) rs)
        \/ (fires res
            /\ exists pre post,
                rs = pre ++ res :: post
                /\ Forall (fun q => (severity q < severity res)%N) pre
                /\ Forall (fun q => (severity q <= severity res)%N) post))
    /\ (forall pre r post,
          rs = pre ++ r :: post -> fires r ->
          Forall (fun q => ~ fires q) pre ->
          Forall (fun q => ~ fires q) post ->
          res = r)
    /\ (forall pre r post,
          rs = pre ++ r :: post -> fires r ->
          Forall (fun q => (severity q < severity r)%N) pre ->
          Forall (fun q => (severity q <= severity r)%N) post ->
          res = r).
Proof.
  intros d rs. destruct (publish_map ctx entries timeout) as (ls & Hpub & _).
  fold d in Hpub. fold rs in Hpub.
  eexists _, _, _. split; [exact Hpub|].
  assert (Hstrict : forall pre r post,
            rs = pre ++ r :: post -> fires r ->
            Forall (fun q => (severity q < severity r)%N) pre ->
            Forall (fun q => (severity q <= severity r)%N) post ->
            fold_left context.keep rs result_default = r).
  { intros pre r post -> Hr Hpre Hpost. by apply fold_keep_first. }
  split; [apply fold_keep_highest|]. split; [|split].
  - destruct (fold_keep_shape rs result_default)
      as [[Hres Hall]|(pre & post & Hrs & Hlt & Hpre & Hpost)].
    + left. split; [done|]. eapply Forall_impl; [exact Hall|].
      unfold fires. simpl. intros r Hr.
      change (severity result_default) with 0%N in Hr. lia.
    + right. split; [unfold fires; lia|]. by exists pre, post.
  - intros pre r post Hrs Hr Hpre Hpost. unfold fires in *.
    apply (Hstrict pre r post); [done..| |];
      (eapply Forall_impl; [eassumption|]; simpl; intros; lia).
  - exact Hstrict.
Qed.

(** For [ctx_two], where a monitoring and a blocking subscriber both fire on
    [batch], the blocking result is the one returned; for [ctx_tie], where
    two monitoring subscribers fire, the result of the first is. *)
Lemma publish_keeps_highest_first_seen_witness :
  (context.publish ctx_two batch 10).1.1 = inr block_result
  /\ (context.publish ctx_tie batch 10).1.1 = inr monitor_result.
Proof.
  split.
  - destruct (publish_keeps_highest_first_seen ctx_two
                [("arg1", p_string "string 1"); ("other", p_signed 7)] 10)
      as (res & ctx' & log & Hpub & _ & _ & _ & Hhigh).
    change (p_map _) with batch in Hpub. rewrite Hpub. cbn [fst]. f_equal.
    apply (Hhigh [monitor_result] block_result []).
    + vm_compute. reflexivity.
    + vm_compute. reflexivity.
    + repeat constructor.
    + constructor.
  - destruct (publish_keeps_highest_first_seen ctx_tie
                [("arg1", p_string "string 1"); ("other", p_signed 7)] 10)
      as (res & ctx' & log & Hpub & _ & _ & _ & Hhigh).
    change (p_map _) with batch in Hpub. rewrite Hpub. cbn [fst]. f_equal.
    apply (Hhigh [] monitor_result [late_result]).
    + vm_compute. reflexivity.
    + vm_compute. reflexivity.
    + constructor.
    + repeat constructor. vm_compute. discriminate.
Defined.



(** C3. publish of anything but a map fails with the invalid-object error
    "not a map", whatever is subscribed, and before any subscriber is looked
    up: no listener is created or called and nothing is logged. *)
Theorem publish_rejects_non_map ctx param timeout :
  is_map param = false ->
  exists ctx',
    context.publish ctx param timeout
    = (inl (invalid_object "." "not a map"), ctx', [])
    /\ context.listeners_ ctx' = context.listeners_ ctx
    /\ context.subscriptions_ ctx' = context.subscriptions_ ctx.
Proof.
  intros Hmap. unfold context.publish. rewrite Hmap. cbn [negb].
  by eexists.
Qed.

Lemma publish_rejects_non_map_witness :
  is_map (p_string "string 1") = false
  /\ exists ctx',
      context.publish ctx_two (p_string "string 1") 10
      = (inl (invalid_object "." "not a map"), ctx', [])
      /\ context.listeners_ ctx' = context.listeners_ ctx_two
      /\ context.subscriptions_ ctx' = context.subscriptions_ ctx_two.
Proof.
  split; [reflexivity|].
  apply (publish_rejects_non_map ctx_two (p_string "string 1") 10).
  reflexivity.
Defined.

(** C4, as stated, fails: a publish that is rejected because the data is not
    a map has nevertheless appended the data to the retained batches. *)
Lemma publish_failure_retains_batch :
  let ctx := create_context empty in
  let '(outcome, ctx', _) := context.publish ctx (p_string "string 1") 10 in
  outcome = inl (invalid_object "." "not a map")
  /\ context.prev_published_params_ ctx' = [p_string "string 1"]
  /\ context.prev_published_params_ ctx'
     <> context.prev_published_params_ ctx.
Proof. vm_compute. by repeat split. Qed.

(** C4, amended. publish takes ownership of the data as soon as it is
    called: the data is appended to the retained batches whether publish
    succeeds or fails with the invalid-object error. *)
Theorem publish_always_retains_batch ctx param timeout :
  context.prev_published_params_ (context.publish ctx param timeout).1.2
  = context.prev_published_params_ ctx ++ [param].
Proof.
  unfold context.publish. destruct (negb (is_map param)); [done|].
  by destruct (context.dispatch _ _ _ _ _ _) as [[res ls] log].
Qed.

Lemma same_addr_same_ptr (l : list subscriber_ptr) x y :
  NoDup (map addr l) -> x ∈ l -> y ∈ l -> addr x = addr y -> x = y.
Proof.
  induction l as [|z l IH]; simpl; intros Hnd Hx Hy Hxy.
  - by apply elem_of_nil in Hx.
  - apply NoDup_cons in Hnd as [Hz Hnd].
    apply elem_of_cons in Hx as [->|Hx]; apply elem_of_cons in Hy as [->|Hy].
    + done.
    + exfalso. apply Hz. rewrite Hxy. by apply list_elem_of_fmap_2.
    + exfalso. apply Hz. rewrite <- Hxy. by apply list_elem_of_fmap_2.
    + by apply IH.
Qed.

Lemma successes_filter {A} (f : A -> exception + result)
    (P : A -> Prop) `{!forall x, Decision (P x)} (l : list A) :
  (forall x, x ∈ l -> ~ P x -> exists e, f x = inl e) ->
  successes (map f (filter P l)) = successes (map f l).
Proof.
  induction l as [|x l IH]; intros Hall; [done|].
  assert (IH' : successes (map f (filter P l)) = successes (map f l)).
  { apply IH. intros y Hy. apply Hall. by right. }
  destruct (decide (P x)) as [HP|HP].
  - rewrite filter_cons_True by done. cbn [map].
    by rewrite !successes_cons, IH'.
  - rewrite filter_cons_False by done. cbn [map].
    destruct (Hall x) as [e He]; [by left|done|].
    by rewrite successes_cons, He.
Qed.

(** C5, as stated, fails: when the only subscriber times out, the caller gets
    the default result, the very value a publish without any subscriber
    returns; the timeout is in the log and nowhere in the result. *)
Lemma publish_result_hides_timeout :
  outcomes ctx_only_timeout batch 10 = [inl timeout_error]
  /\ (context.publish ctx_only_timeout batch 10).1.1 = inr result_default
  /\ (context.publish (create_context empty) batch 10).1.1
     = inr result_default
  /\ (context.publish ctx_only_timeout batch 10).2
     = [data_pushed "arg1"; data_pushed "other";
        subscriber_failed timeout_error].
Proof. vm_compute. by repeat split. Qed.

(** C5, amended. A timeout thrown by a listener is caught like any other
    listener failure: publish still returns a result, the timeout is logged
    as a diagnostic, the result is the aggregation of the answers of the
    other subscribers (hence the default result or one successful answer
    as it is, with no failure context), and every subscriber of the set has
    been called. *)
Theorem publish_logs_timeout_and_goes_on ctx entries timeout sub :
  let d := p_map entries in
  let others := filter (fun s => addr s <> addr sub) (dispatched ctx d) in
  sub ∈ dispatched ctx d ->
  outcome_of (context.listeners_ ctx) d timeout sub = inl timeout_error ->
  exists res ctx' log,
    context.publish ctx d timeout = (inr res, ctx', log)
    /\ subscriber_failed timeout_error ∈ log
    /\ res = fold_left context.keep
               (successes
                  (map (outcome_of (context.listeners_ ctx) d timeout) others))
               result_default
    /\ (res = result_default \/ inr res ∈ outcomes ctx d timeout)
    /\ (forall s, s ∈ dispatched ctx d ->
          calls_of (context.listeners_ ctx') (addr s)
          = S (calls_of (context.listeners_ ctx) (addr s))).
Proof.
  intros d others Hsub Hto.
  destruct (publish_map ctx entries timeout) as (ls & Hpub & Hin & _).
  fold d in Hpub, Hin.
  eexists _, _, _. split; [exact Hpub|]. split; [|split; [|split]].
  - apply elem_of_app. right. apply failures_elem.
    unfold outcomes. rewrite <- Hto. by apply list_elem_of_fmap_2.
  - unfold others. rewrite successes_filter; [done|].
    intros x Hx Hne. exists timeout_error.
    assert (x = sub) as ->; [|done].
    apply (same_addr_same_ptr (dispatched ctx d)); auto using dispatched_NoDup.
    by destruct (decide (addr x = addr sub)).
  - destruct (fold_keep_shape (successes (outcomes ctx d timeout))
                result_default) as [[Hres _]|(pre & post & Hrs & _)];
      [by left|].
    right. apply successes_elem. rewrite Hrs at 2.
    apply elem_of_app. right. by left.
  - intros s Hs. cbn [context.listeners_]. unfold calls_of at 1.
    rewrite (Hin s Hs). apply listener_after_calls.
Qed.

Lemma publish_logs_timeout_and_goes_on_witness :
  (context.publish ctx_timeout batch 10).1.1 = inr monitor_result
  /\ subscriber_failed timeout_error
     ∈ (context.publish ctx_timeout batch 10).2.
Proof.
  destruct (publish_logs_timeout_and_goes_on ctx_timeout
              [("arg1", p_string "string 1"); ("other", p_signed 7)] 10
              sub_timeout)
    as (res & ctx' & log & Hpub & Hlog & Hres & _).
  - vm_compute. right. left.
  - reflexivity.
  - change (p_map _) with batch in Hpub. rewrite Hpub. cbn [fst snd].
    split; [|done]. rewrite Hres. vm_compute. reflexivity.
Defined.

(** C6, as stated, fails: a subscriber registered twice is in the table
    twice under its address, and one publish of that address calls its
    listener once, not twice. *)
Lemma duplicate_registration_dispatches_once :
  registrations (context.subscriptions_ ctx_twice) "arg1" sub_monitor = 2
  /\ dispatched ctx_twice batch = [sub_monitor]
  /\ calls_of (context.listeners_ (context.publish ctx_twice batch 10).1.2)
              (addr sub_monitor) = 1
  /\ calls_of (context.listeners_ (context.publish ctx_twice batch 10).1.2)
              (addr sub_monitor) <> 2.
Proof. vm_compute. by repeat split. Qed.

(** C6, amended. Registering the same subscriber twice puts it twice in the
    subscription table under every address it declares, but publish
    deduplicates the subscribers by identity: one publish whose data has
    such an address calls the subscriber's listener exactly once. *)
Theorem duplicate_registration_single_dispatch
    e sub a ctx entries timeout :
  a ∈ get_subscriptions (target sub) ->
  context.subscriptions_ ctx
  = subscriptions_ (subscribe (subscribe e sub) sub) ->
  a ∈ map fst entries ->
  2 <= registrations (context.subscriptions_ ctx) a sub
  /\ calls_of
       (context.listeners_ (context.publish ctx (p_map entries) timeout).1.2)
       (addr sub)
     = S (calls_of (context.listeners_ ctx) (addr sub)).
Proof.
  intros Ha Hsubs Hkey.
  assert (Hreg : 2 <= registrations (context.subscriptions_ ctx) a sub).
  { rewrite Hsubs. unfold subscribe. cbn [subscriptions_].
    rewrite !registrations_fold.
    assert (Hone : 1 <= length (filter (fun b => a = b)
                                       (get_subscriptions (target sub)))).
    { destruct (filter _ _) as [|b f] eqn:Hf; [|simpl; lia].
      assert (Hin : a ∈ filter (fun b => a = b)
                                (get_subscriptions (target sub)))
        by by apply list_elem_of_filter.
      rewrite Hf in Hin. by apply elem_of_nil in Hin. }
    lia. }
  split; [done|].
  destruct (registrations_dispatched ctx (p_map entries) a sub)
    as (sub' & Hsub' & Haddr); [done|lia|].
  destruct (publish_map ctx entries timeout) as (ls & Hpub & Hin & _).
  rewrite Hpub. cbn [fst snd context.listeners_].
  unfold calls_of at 1. rewrite <- Haddr, (Hin sub' Hsub').
  apply listener_after_calls.
Qed.

Lemma duplicate_registration_single_dispatch_witness :
  2 <= registrations (context.subscriptions_ ctx_twice) "arg1" sub_monitor
  /\ calls_of (context.listeners_ (context.publish ctx_twice batch 10).1.2)
              (addr sub_monitor)
     = S (calls_of (context.listeners_ ctx_twice) (addr sub_monitor)).
Proof.
  apply (duplicate_registration_single_dispatch empty sub_monitor "arg1"
           ctx_twice [("arg1", p_string "string 1"); ("other", p_signed 7)]
           10).
  - vm_compute. left.
  - reflexivity.
  - vm_compute. left.
Defined.

(** C10. When the data is a map none of whose top-level keys is in the
    subscription table, publish succeeds with the default result, and no
    listener is created or called: the listener cache is unchanged and
    nothing but the pushed keys is logged. *)
Theorem publish_without_subscribers ctx entries timeout :
  (forall key, key ∈ map fst entries ->
     context.subscriptions_ ctx !! key = None) ->
  dispatched ctx (p_map entries) = []
  /\ context.publish ctx (p_map entries) timeout
     = (inr result_default,
        {| context.subscriptions_ := context.subscriptions_ ctx;
           context.listeners_ := context.listeners_ ctx;
           context.prev_published_params_ :=
             context.prev_published_params_ ctx ++ [p_map entries] |},
        pushed (p_map entries)).
Proof.
  intros Hnone. unfold dispatched, context.publish.
  cbn [is_map negb entries_of]. by rewrite collect_none.
Qed.

Lemma publish_without_subscribers_witness :
  context.publish ctx_two unrelated_batch 10
  = (inr result_default,
     {| context.subscriptions_ := context.subscriptions_ ctx_two;
        context.listeners_ := ∅;
        context.prev_published_params_ := [unrelated_batch] |},
     [data_pushed "other"]).
Proof.
  apply (publish_without_subscribers ctx_two [("other", p_signed 7)] 10).
  intros key Hkey. apply list_elem_of_singleton in Hkey as ->.
  vm_compute. reflexivity.
Defined.

(** ** The claims about the detection subscriber *)



















(** * Further properties of the engine *)

(** ** Registration *)

Lemma filter_eq_absent (a : string) (addrs : list string) :
  a ∉ addrs -> filter (fun b => a = b) addrs = [].
Proof.
  induction addrs as [|b addrs IH]; [done|]. intros Ha.
  apply not_elem_of_cons in Ha as [Hne Ha].
  rewrite filter_cons_False by done. by apply IH.
Qed.

Lemma subscribe_addr_lookup sub subs a b :
  subscribe_addr sub subs b !! a
  = if decide (a = b) then Some (default [] (subs !! a) ++ [sub])
    else subs !! a.
Proof.
  unfold subscribe_addr. destruct (decide (a = b)) as [->|Hne].
  - destruct (subs !! b); by rewrite lookup_insert_eq.
  - destruct (subs !! b); by rewrite lookup_insert_ne.
Qed.

Lemma subscribe_fold_lookup sub addrs subs a :
  fold_left (subscribe_addr sub) addrs subs !! a
  = if decide (a ∈ addrs)
    then Some (default [] (subs !! a)
               ++ replicate (length (filter (fun b => a = b) addrs)) sub)
    else subs !! a.
Proof.
  revert subs. induction addrs as [|b addrs IH]; intros subs.
  - simpl. destruct (decide (a ∈ [])) as [H|_]; [|done].
    by apply elem_of_nil in H.
  - cbn [fold_left]. rewrite IH, subscribe_addr_lookup.
    destruct (decide (a = b)) as [->|Hne].
    + rewrite filter_cons_True by done.
      destruct (decide (b ∈ b :: addrs)) as [_|Hn]; [|by destruct Hn; left].
      destruct (decide (b ∈ addrs)) as [Hin|Hnotin].
      * cbn [from_option id length replicate]. by rewrite <- app_assoc.
      * by rewrite filter_eq_absent.
    + rewrite filter_cons_False by done.
      destruct (decide (a ∈ addrs)) as [Hin|Hnotin];
        destruct (decide (a ∈ b :: addrs)) as [Hin'|Hnotin']; try done.
      * destruct Hnotin'. by right.
      * apply elem_of_cons in Hin' as [->|H]; done.
Qed.

(** X1. [subscribe] appends the subscriber at the end of the list of every
    address it declares (once per occurrence of the address in the
    declaration), creating the list when the address is new, and leaves the
    lists of all other addresses as they were: earlier registrations keep
    their place. *)
Theorem subscribe_lookup e sub a :
  subscriptions_ (subscribe e sub) !! a
  = if decide (a ∈ get_subscriptions (target sub))
    then Some (default [] (subscriptions_ e !! a)
               ++ replicate
                    (length (filter (fun b => a = b)
                                    (get_subscriptions (target sub))))
                    sub)
    else subscriptions_ e !! a.
Proof. unfold subscribe. cbn [subscriptions_]. apply subscribe_fold_lookup. Qed.

(** ** The set publish dispatches to *)

Lemma set_insert_elem sub s x :
  x ∈ set_insert sub s -> x = sub \/ x ∈ s.
Proof.
  induction s as [|y s IH]; simpl.
  - intros ->%list_elem_of_singleton. by left.
  - destruct (addr sub ?= addr y)%positive.
    + by right.
    + intros [->|H]%elem_of_cons; [by left|by right].
    + intros [->|H]%elem_of_cons; [right; by left|].
      destruct (IH H) as [->|H']; [by left|right; by right].
Qed.

Lemma insert_all_elem v s x :
  x ∈ fold_left (fun s sub => set_insert sub s) v s -> x ∈ v \/ x ∈ s.
Proof.
  revert s. induction v as [|y v IH]; simpl; intros s Hx; [by right|].
  destruct (IH _ Hx) as [H|H]; [left; by right|].
  destruct (set_insert_elem _ _ _ H) as [->|H']; [left; by left|by right].
Qed.

Lemma collect_elem subs entries s x :
  x ∈ context.collect subs entries s ->
  x ∈ s \/ exists key v, key ∈ map fst entries /\ subs !! key = Some v
                         /\ x ∈ v.
Proof.
  revert s. induction entries as [|[key p] rest IH]; simpl; intros s Hx.
  - by left.
  - destruct (subs !! key) as [v|] eqn:Hkey.
    + destruct (IH _ Hx) as [H|(k & w & Hk & Hw & Hxw)].
      * destruct (insert_all_elem _ _ _ H) as [Hv|Hs]; [|by left].
        right. exists key, v. repeat split; [by left|done..].
      * right. exists k, w. repeat split; [by right|done..].
    + destruct (IH _ Hx) as [H|(k & w & Hk & Hw & Hxw)]; [by left|].
      right. exists k, w. repeat split; [by right|done..].
Qed.

Lemma dispatched_ordered ctx d :
  StronglySorted Pos.lt (map addr (dispatched ctx d)).
Proof. apply collect_ordered. constructor. Qed.

Lemma dispatched_addr ctx d a :
  a ∈ map addr (dispatched ctx d)
  <-> registered_under (context.subscriptions_ ctx) (keys_of d) a.
Proof.
  unfold dispatched, registered_under, keys_of.
  rewrite collect_addr. split; [|by right].
  intros [H|H]; [|done]. by apply elem_of_nil in H.
Qed.

(** X2. The subscribers one publish dispatches to are visited in strictly
    increasing order of their address, hence each address once; an address
    is visited exactly when it is registered under one of the top-level
    keys of the data; and every pointer visited is one of those stored in
    the table under such a key. *)
Theorem dispatched_sorted_exact ctx d :
  StronglySorted Pos.lt (map addr (dispatched ctx d))
  /\ NoDup (map addr (dispatched ctx d))
  /\ (forall a,
        a ∈ map addr (dispatched ctx d)
        <-> registered_under (context.subscriptions_ ctx) (keys_of d) a)
  /\ Forall (fun sub =>
               exists key v,
                 key ∈ keys_of d
                 /\ context.subscriptions_ ctx !! key = Some v
                 /\ sub ∈ v)
            (dispatched ctx d).
Proof.
  split; [|split; [|split]].
  - apply dispatched_ordered.
  - apply dispatched_NoDup.
  - apply dispatched_addr.
  - apply list.Forall_forall. intros sub Hsub.
    destruct (collect_elem _ _ _ _ Hsub) as [H|H]; [|done].
    by apply elem_of_nil in H.
Qed.

Lemma sorted_unique (l1 l2 : list positive) :
  StronglySorted Pos.lt l1 -> StronglySorted Pos.lt l2 ->
  (forall x, x ∈ l1 <-> x ∈ l2) -> l1 = l2.
Proof.
  intros H1. revert l2. induction H1 as [|a l1 Hs1 IH Ha]; intros l2 H2 Hiff.
  - destruct l2 as [|b l2]; [done|].
    exfalso. eapply elem_of_nil, Hiff. left.
  - destruct H2 as [|b l2 Hs2 Hb].
    { exfalso. eapply elem_of_nil, Hiff. left. }
    rewrite list.Forall_forall in Ha, Hb.
    assert (a = b) as ->.
    { assert (Hab : a ∈ b :: l2) by (apply Hiff; left).
      assert (Hba : b ∈ a :: l1) by (apply Hiff; left).
      apply elem_of_cons in Hab as [->|Hab]; [done|].
      apply elem_of_cons in Hba as [->|Hba]; [done|].
      apply Hb in Hab. apply Ha in Hba. lia. }
    f_equal. apply IH; [done|]. intros x. split; intros Hx.
    + assert (Hx' : x ∈ b :: l2) by (apply Hiff; by right).
      apply elem_of_cons in Hx' as [->|Hx']; [|done].
      apply Ha in Hx. lia.
    + assert (Hx' : x ∈ b :: l1) by (apply Hiff; by right).
      apply elem_of_cons in Hx' as [->|Hx']; [|done].
      apply Hb in Hx. lia.
Qed.

Lemma dispatch_order_canonical ctx ctx' d d' :
  (forall a,
     registered_under (context.subscriptions_ ctx) (keys_of d) a
     <-> registered_under (context.subscriptions_ ctx') (keys_of d') a) ->
  map addr (dispatched ctx d) = map addr (dispatched ctx' d').
Proof.
  intros Hsame.
  apply sorted_unique; [apply dispatched_ordered..|].
  intros a. by rewrite !dispatched_addr, Hsame.
Qed.

Lemma registered_under_default subs keys a :
  registered_under subs keys a
  <-> exists key, key ∈ keys /\ a ∈ map addr (default [] (subs !! key)).
Proof.
  unfold registered_under. split.
  - intros (key & v & Hk & Hv & Ha). exists key. by rewrite Hv.
  - intros (key & Hk & Ha). destruct (subs !! key) as [v|] eqn:Hv.
    + by exists key, v.
    + by apply elem_of_nil in Ha.
Qed.

Lemma subscribe_addresses e sub key a :
  a ∈ map addr (default [] (subscriptions_ (subscribe e sub) !! key))
  <-> a ∈ map addr (default [] (subscriptions_ e !! key))
      \/ (key ∈ get_subscriptions (target sub) /\ a = addr sub).
Proof.
  unfold subscribe. cbn [subscriptions_]. rewrite subscribe_fold_lookup.
  destruct (decide (key ∈ get_subscriptions (target sub))) as [Hin|Hnotin].
  - cbn [from_option id]. rewrite map_app, elem_of_app.
    assert (Hrep : a ∈ map addr
                     (replicate
                        (length (filter (fun b => key = b)
                                        (get_subscriptions (target sub))))
                        sub)
                   <-> a = addr sub).
    { destruct (filter _ _) as [|b f] eqn:Hf.
      - assert (Hk : key ∈ filter (fun b => key = b)
                                  (get_subscriptions (target sub)))
          by by apply list_elem_of_filter.
        rewrite Hf in Hk. by apply elem_of_nil in Hk.
      - cbn [length replicate map]. rewrite elem_of_cons. split; [|by left].
        intros [H|H]; [done|].
        apply list_elem_of_fmap in H as (x & -> & Hx).
        by apply elem_of_replicate in Hx as [-> _]. }
    rewrite Hrep. tauto.
  - tauto.
Qed.

(** X3. The order in which one publish visits the subscribers does not
    depend on the order of the keys in the published map: two maps with the
    same entries in a different order are dispatched to the same
    subscribers in the same order. *)
Theorem dispatch_order_ignores_key_order ctx entries entries' :
  entries ≡ₚ entries' ->
  map addr (dispatched ctx (p_map entries))
  = map addr (dispatched ctx (p_map entries')).
Proof.
  intros Hperm. apply dispatch_order_canonical. intros a.
  unfold registered_under, keys_of. cbn [entries_of].
  assert (Hkeys : forall key, key ∈ map fst entries <-> key ∈ map fst entries').
  { intros key. by rewrite (fmap_Permutation fst _ _ Hperm). }
  split; intros (key & v & Hk & Hv); exists key, v; by rewrite ?Hkeys in *.
Qed.

Lemma dispatch_order_ignores_key_order_witness :
  map addr (dispatched ctx_two batch)
  = map addr (dispatched ctx_two batch_swapped)
  /\ map addr (dispatched ctx_two batch) = [1%positive; 2%positive].
Proof.
  split; [|reflexivity].
  apply (dispatch_order_ignores_key_order ctx_two
           [("arg1", p_string "string 1"); ("other", p_signed 7)]
           [("other", p_signed 7); ("arg1", p_string "string 1")]).
  apply perm_swap.
Defined.

(** X4. The order in which one publish visits the subscribers does not
    depend on the order in which they were registered: registering two
    subscribers in either order gives the same dispatch order, the one of
    their addresses. *)
Theorem dispatch_order_ignores_registration_order e s1 s2 d :
  map addr (dispatched (create_context (subscribe (subscribe e s1) s2)) d)
  = map addr (dispatched (create_context (subscribe (subscribe e s2) s1)) d).
Proof.
  apply dispatch_order_canonical. intros a.
  rewrite !registered_under_default. cbn [create_context
    context.subscriptions_].
  split; intros (key & Hk & Ha); exists key; (split; [done|]);
    rewrite !subscribe_addresses in *; tauto.
Qed.

(** ** What publish leaves alone *)

(** X5. publish does not create, call or alter the listener of any
    subscriber that is not registered under one of the top-level keys of the
    data, whether the data is accepted or rejected. *)
Theorem publish_leaves_unrelated_listeners ctx param timeout a :
  ~ registered_under (context.subscriptions_ ctx) (keys_of param) a ->
  context.listeners_ (context.publish ctx param timeout).1.2 !! a
  = context.listeners_ ctx !! a.
Proof.
  intros Hnot. destruct param as [| | | | |entries];
    try reflexivity.
  destruct (publish_map ctx entries timeout) as (ls & -> & _ & Hout).
  cbn [fst snd context.listeners_]. apply Hout.
  intros Hin. apply Hnot. by apply dispatched_addr.
Qed.

Lemma publish_leaves_unrelated_listeners_witness :
  context.listeners_ (context.publish ctx_two unrelated_batch 10).1.2
    !! addr sub_block
  = None.
Proof.
  rewrite (publish_leaves_unrelated_listeners ctx_two unrelated_batch 10
             (addr sub_block)); [reflexivity|].
  intros (key & v & Hk & Hv & Ha).
  apply list_elem_of_singleton in Hk as ->. vm_compute in Hv. discriminate.
Defined.

(** X6. publish never changes the subscription table, never drops a listener
    from the cache, and calls each listener at most once: no call count
    goes down, and none goes up by more than one. *)
Theorem publish_cache_monotone ctx param timeout a :
  context.subscriptions_ (context.publish ctx param timeout).1.2
  = context.subscriptions_ ctx
  /\ (is_Some (context.listeners_ ctx !! a) ->
      is_Some (context.listeners_ (context.publish ctx param timeout).1.2
                 !! a))
  /\ calls_of (context.listeners_ ctx) a
     <= calls_of (context.listeners_ (context.publish ctx param timeout).1.2)
                 a
     <= S (calls_of (context.listeners_ ctx) a).
Proof.
  destruct param as [| | | | |entries];
    try (split; [reflexivity|split; [done|cbn; lia]]).
  destruct (publish_map ctx entries timeout) as (ls & -> & Hin & Hout).
  cbn [fst snd context.listeners_ context.subscriptions_].
  split; [done|].
  destruct (decide (a ∈ map addr (dispatched ctx (p_map entries))))
    as [Ha|Ha].
  - apply list_elem_of_fmap in Ha as (sub & -> & Hsub).
    unfold calls_of at 2 3. rewrite (Hin sub Hsub).
    rewrite listener_after_calls. split; [by eexists|lia].
  - unfold calls_of. rewrite (Hout a Ha). split; [done|].
    destruct (context.listeners_ ctx !! a); lia.
Qed.

Lemma publish_cache_monotone_witness :
  is_Some (context.listeners_
             (context.publish
                (context.publish ctx_two batch 10).1.2 unrelated_batch 10).1.2
             !! addr sub_block).
Proof.
  apply (publish_cache_monotone (context.publish ctx_two batch 10).1.2
           unrelated_batch 10 (addr sub_block)).
  vm_compute. by eexists.
Defined.

(** ** Several publishes on one context *)

Lemma dispatched_same_table ctx ctx' d :
  context.subscriptions_ ctx' = context.subscriptions_ ctx ->
  dispatched ctx' d = dispatched ctx d.
Proof. unfold dispatched. by intros ->. Qed.

Lemma publish_same_table ctx param timeout :
  context.subscriptions_ (context.publish ctx param timeout).1.2
  = context.subscriptions_ ctx.
Proof.
  unfold context.publish. destruct (negb (is_map param)); [done|].
  by destruct (context.dispatch _ _ _ _ _ _) as [[res ls] log].
Qed.

Lemma publish_retains ctx param timeout :
  context.prev_published_params_ (context.publish ctx param timeout).1.2
  = context.prev_published_params_ ctx ++ [param].
Proof.
  unfold context.publish. destruct (negb (is_map param)); [done|].
  by destruct (context.dispatch _ _ _ _ _ _) as [[res ls] log].
Qed.

(** X7. The listener of a subscriber is created once per context and reused:
    when two successive publishes both reach a subscriber, the second call
    is made on the listener the first one left, which has the first batch in
    its history, and after the second publish the cached listener has seen
    both batches, in order. *)
Theorem listener_reused_across_publishes ctx entries1 t1 entries2 t2 sub :
  let d1 := p_map entries1 in
  let d2 := p_map entries2 in
  let l0 := context.find_or_create (context.listeners_ ctx) sub in
  let ctx1 := (context.publish ctx d1 t1).1.2 in
  let ctx2 := (context.publish ctx1 d2 t2).1.2 in
  sub ∈ dispatched ctx d1 ->
  sub ∈ dispatched ctx d2 ->
  outcome_of (context.listeners_ ctx1) d2 t2 sub
  = call_fn l0 (history l0 ++ [(d1, t1)]) d2 t2
  /\ context.listeners_ ctx2 !! addr sub
     = Some {| history := history l0 ++ [(d1, t1); (d2, t2)];
               call_fn := call_fn l0 |}.
Proof.
  intros d1 d2 l0 ctx1 ctx2 H1 H2.
  destruct (publish_map ctx entries1 t1) as (ls1 & Hpub1 & Hin1 & _).
  fold d1 in Hpub1, Hin1.
  assert (Hl1 : context.listeners_ ctx1 !! addr sub
                = Some {| history := history l0 ++ [(d1, t1)];
                          call_fn := call_fn l0 |}).
  { unfold ctx1. rewrite Hpub1. cbn [fst snd context.listeners_].
    by rewrite (Hin1 sub H1). }
  assert (Hfind : context.find_or_create (context.listeners_ ctx1) sub
                  = {| history := history l0 ++ [(d1, t1)];
                       call_fn := call_fn l0 |}).
  { unfold context.find_or_create at 1. by rewrite Hl1. }
  split.
  - unfold outcome_of, call. by rewrite Hfind.
  - destruct (publish_map ctx1 entries2 t2) as (ls2 & Hpub2 & Hin2 & _).
    fold d2 in Hpub2, Hin2. unfold ctx2. rewrite Hpub2.
    cbn [fst snd context.listeners_]. rewrite Hin2.
    + unfold listener_after, call. rewrite Hfind. cbn [snd history call_fn].
      by rewrite <- app_assoc.
    + rewrite (dispatched_same_table ctx ctx1); [done|].
      apply publish_same_table.
Qed.

(** The escalating listener monitors the first batch and blocks the second:
    the second publish on the same context returns the blocking result. *)
Lemma listener_reused_across_publishes_witness :
  (context.publish ctx_escalating batch 10).1.1 = inr monitor_result
  /\ outcome_of
       (context.listeners_ (context.publish ctx_escalating batch 10).1.2)
       batch 20 sub_escalating
     = inr block_result.
Proof.
  split; [reflexivity|].
  destruct (listener_reused_across_publishes ctx_escalating
              [("arg1", p_string "string 1"); ("other", p_signed 7)] 10
              [("arg1", p_string "string 1"); ("other", p_signed 7)] 20
              sub_escalating) as [Hout _].
  - vm_compute. left.
  - vm_compute. left.
  - exact Hout.
Defined.

Lemma publish_all_same_table batches ctx :
  context.subscriptions_ (publish_all ctx batches).1.2
  = context.subscriptions_ ctx.
Proof.
  revert ctx. induction batches as [|[param timeout] rest IH]; intros ctx;
    [done|].
  cbn [publish_all].
  pose proof (publish_same_table ctx param timeout) as Hsame.
  destruct (context.publish ctx param timeout) as [[out ctx'] log].
  specialize (IH ctx').
  destruct (publish_all ctx' rest) as [[outs ctx''] log'].
  cbn [fst snd] in *. congruence.
Qed.

(** X8. Over a whole request, a listener is called once for every accepted
    batch that has a key its subscriber is registered under, and for no
    other batch: its call count grows by the number of such batches. *)
Theorem publish_all_call_count batches ctx a :
  calls_of (context.listeners_ (publish_all ctx batches).1.2) a
  = calls_of (context.listeners_ ctx) a
    + length (filter (fun b => is_map b.1 = true
                               /\ a ∈ map addr (dispatched ctx b.1))
                     batches).
Proof.
  revert ctx. induction batches as [|[param timeout] rest IH]; intros ctx.
  - simpl. lia.
  - cbn [publish_all].
    pose proof (publish_same_table ctx param timeout) as Hsame.
    assert (Hstep :
      calls_of (context.listeners_ (context.publish ctx param timeout).1.2) a
      = calls_of (context.listeners_ ctx) a
        + if decide (is_map param = true
                     /\ a ∈ map addr (dispatched ctx param))
          then 1 else 0).
    { destruct param as [| | | | |entries];
        try (rewrite decide_False by (by intros [? _]); cbn; lia).
      destruct (publish_map ctx entries timeout) as (ls & -> & Hin & Hout).
      cbn [fst snd context.listeners_].
      destruct (decide (a ∈ map addr (dispatched ctx (p_map entries))))
        as [Ha|Ha].
      - rewrite decide_True by done.
        apply list_elem_of_fmap in Ha as (sub & -> & Hsub).
        unfold calls_of at 1. rewrite (Hin sub Hsub).
        rewrite listener_after_calls. lia.
      - rewrite decide_False by (by intros [_ ?]).
        unfold calls_of. rewrite (Hout a Ha). lia. }
    destruct (context.publish ctx param timeout) as [[out ctx'] log].
    specialize (IH ctx').
    destruct (publish_all ctx' rest) as [[outs ctx''] log'].
    cbn [fst snd] in *. rewrite IH, Hstep.
    rewrite (list_filter_iff _
               (fun b => is_map b.1 = true
                         /\ a ∈ map addr (dispatched ctx b.1)) rest).
    + destruct (decide _) as [Hd|Hd].
      * rewrite filter_cons_True by done. simpl. lia.
      * rewrite filter_cons_False by done. lia.
    + intros b. by rewrite (dispatched_same_table ctx ctx').
Qed.

(** X9. Every parameter handed to publish during a request, accepted or
    rejected, is retained by the context and freed by its destructor,
    exactly once and in publish order, after the batches the context already
    held. *)
Theorem destructor_frees_every_batch batches ctx :
  context.destructor (publish_all ctx batches).1.2
  = context.destructor ctx ++ map (fun b => context.freed b.1) batches.
Proof.
  unfold context.destructor.
  revert ctx. induction batches as [|[param timeout] rest IH]; intros ctx.
  - simpl. by rewrite app_nil_r.
  - cbn [publish_all].
    pose proof (publish_retains ctx param timeout) as Hkeep.
    destruct (context.publish ctx param timeout) as [[out ctx'] log].
    specialize (IH ctx').
    destruct (publish_all ctx' rest) as [[outs ctx''] log'].
    cbn [fst snd] in *. rewrite IH, Hkeep, map_app. cbn [map fst].
    by rewrite <- app_assoc.
Qed.

(** * Properties of the embedding SAPI *)

Lemma append_step answer key value st :
  let r := zai_sapi.zai_sapi_append_system_ini_entry answer key value st in
  let asked :=
    zai_sapi.ini_entries_realloc_append
      (zai_sapi.to_size_t (zai_sapi.ini_entries_len st)) key value in
  (r.1 = true
   /\ (zai_sapi.ini_entries_len st < zai_sapi.ini_entries_len r.2)%Z
   /\ zai_sapi.ini_entries_len r.2
      = zai_sapi.to_ssize_t (answer (zai_sapi.trace st ++ [asked]))
   /\ zai_sapi.trace r.2 = zai_sapi.trace st ++ [asked])
  \/ (r.1 = false
      /\ zai_sapi.ini_entries_len r.2 = zai_sapi.ini_entries_len st
      /\ zai_sapi.trace r.2
         = zai_sapi.trace st ++ [asked; zai_sapi.ini_entries_free]).
Proof.
  intros r asked. unfold r, zai_sapi.zai_sapi_append_system_ini_entry,
    zai_sapi.bind, zai_sapi.get_ini_entries_len, zai_sapi.extern.
  cbn [zai_sapi.ini_entries_len zai_sapi.trace]. fold asked.
  destruct (Z.leb_spec
              (zai_sapi.to_ssize_t (answer (zai_sapi.trace st ++ [asked])))
              (zai_sapi.ini_entries_len st)) as [Hle|Hlt].
  - right. cbn. by rewrite <- app_assoc.
  - left. cbn. done.
Qed.

Ltac run_sapi :=
  unfold zai_sapi.zai_sapi_sinit, zai_sapi.zai_sapi_minit,
    zai_sapi.zai_sapi_rinit, zai_sapi.zai_sapi_sshutdown,
    zai_sapi.zai_sapi_rshutdown, zai_sapi.zai_sapi_mshutdown,
    zai_sapi.zs_startup, zai_sapi.zs_tsrm_startup, zai_sapi.when,
    zai_sapi.bind, zai_sapi.perform, zai_sapi.extern,
    zai_sapi.set_ini_entries_len, zai_sapi.ret;
  cbn [zai_sapi.trace zai_sapi.ini_entries_len fst snd].

Lemma sinit_run ZTS answer st :
  zai_sapi.zai_sapi_sinit ZTS answer st
  = let t1 := zai_sapi.trace st ++ zai_sapi.sinit_effects ZTS in
    let len := zai_sapi.to_ssize_t (answer t1) in
    if (len =? -1)%Z
    then (false, {| zai_sapi.ini_entries_len := len; zai_sapi.trace := t1 |})
    else (true, {| zai_sapi.ini_entries_len := len;
                   zai_sapi.trace := t1 ++ zai_sapi.configure_effects |}).
Proof.
  unfold zai_sapi.sinit_effects, zai_sapi.configure_effects.
  destruct ZTS; run_sapi; cbn [app]; rewrite <- ?app_assoc; cbn [app];
    (destruct (_ =? _)%Z; [done|]);
    cbn [zai_sapi.trace zai_sapi.ini_entries_len];
    rewrite <- ?app_assoc; by cbn [app].
Qed.

Lemma sshutdown_run ZTS st :
  zai_sapi.zai_sapi_sshutdown ZTS st
  = (tt, {| zai_sapi.ini_entries_len := zai_sapi.ini_entries_len st;
            zai_sapi.trace :=
              zai_sapi.trace st ++ zai_sapi.sshutdown_effects ZTS |}).
Proof.
  unfold zai_sapi.sshutdown_effects.
  destruct ZTS; run_sapi; cbn [app]; by rewrite <- ?app_assoc.
Qed.

Lemma minit_run ZTS answer st :
  zai_sapi.zai_sapi_minit ZTS answer st
  = let t := zai_sapi.trace st ++ [zai_sapi.php_module_startup] in
    if (zai_sapi.to_int (answer t) =? zai_sapi.FAILURE)%Z
    then (false, {| zai_sapi.ini_entries_len := zai_sapi.ini_entries_len st;
                    zai_sapi.trace := t ++ zai_sapi.sshutdown_effects ZTS |})
    else (true, {| zai_sapi.ini_entries_len := zai_sapi.ini_entries_len st;
                   zai_sapi.trace := t |}).
Proof.
  unfold zai_sapi.zai_sapi_minit, zai_sapi.zs_startup, zai_sapi.bind,
    zai_sapi.extern, zai_sapi.ret.
  cbn [zai_sapi.trace zai_sapi.ini_entries_len fst snd].
  destruct (_ =? _)%Z; [|done]. by rewrite sshutdown_run.
Qed.

Lemma rinit_run answer st :
  zai_sapi.zai_sapi_rinit answer st
  = let t := zai_sapi.trace st ++ [zai_sapi.php_request_startup] in
    if (zai_sapi.to_int (answer t) =? zai_sapi.FAILURE)%Z
    then (false, {| zai_sapi.ini_entries_len := zai_sapi.ini_entries_len st;
                    zai_sapi.trace := t |})
    else (true, {| zai_sapi.ini_entries_len := zai_sapi.ini_entries_len st;
                   zai_sapi.trace := t ++ zai_sapi.rinit_effects |}).
Proof.
  unfold zai_sapi.rinit_effects. run_sapi.
  destruct (_ =? _)%Z; [done|].
  cbn [zai_sapi.trace zai_sapi.ini_entries_len].
  rewrite <- ?app_assoc. by cbn [app].
Qed.

Lemma spinup_cases ZTS answer st :
  let r := zai_sapi.zai_sapi_spinup ZTS answer st in
  let t1 := zai_sapi.trace st ++ zai_sapi.sinit_effects ZTS in
  let t2 := t1 ++ zai_sapi.configure_effects
            ++ [zai_sapi.php_module_startup] in
  let t3 := t2 ++ [zai_sapi.php_request_startup] in
  let allocated := zai_sapi.to_ssize_t (answer t1) in
  (r.1 = true
   /\ allocated <> (-1)%Z
   /\ zai_sapi.to_int (answer t2) <> zai_sapi.FAILURE
   /\ zai_sapi.to_int (answer t3) <> zai_sapi.FAILURE
   /\ zai_sapi.ini_entries_len r.2 = allocated
   /\ zai_sapi.trace r.2 = t3 ++ zai_sapi.rinit_effects)
  \/ (r.1 = false
      /\ allocated = (-1)%Z
      /\ zai_sapi.ini_entries_len r.2 = (-1)%Z
      /\ zai_sapi.trace r.2 = t1)
  \/ (r.1 = false
      /\ allocated <> (-1)%Z
      /\ zai_sapi.to_int (answer t2) = zai_sapi.FAILURE
      /\ zai_sapi.ini_entries_len r.2 = allocated
      /\ zai_sapi.trace r.2 = t2 ++ zai_sapi.sshutdown_effects ZTS)
  \/ (r.1 = false
      /\ allocated <> (-1)%Z
      /\ zai_sapi.to_int (answer t2) <> zai_sapi.FAILURE
      /\ zai_sapi.to_int (answer t3) = zai_sapi.FAILURE
      /\ zai_sapi.ini_entries_len r.2 = allocated
      /\ zai_sapi.trace r.2 = t3).
Proof.
  intros r t1 t2 t3 allocated.
  unfold r, zai_sapi.zai_sapi_spinup, zai_sapi.bind. rewrite sinit_run.
  cbn zeta. fold t1. fold allocated.
  destruct (Z.eqb_spec allocated (-1)) as [Halloc|Halloc].
  { right. left. by rewrite <- Halloc at 2. }
  rewrite minit_run. cbn [zai_sapi.trace zai_sapi.ini_entries_len]. cbn zeta.
  replace ((t1 ++ zai_sapi.configure_effects)
           ++ [zai_sapi.php_module_startup]) with t2
    by (unfold t2; by rewrite <- app_assoc).
  destruct (Z.eqb_spec (zai_sapi.to_int (answer t2)) zai_sapi.FAILURE)
    as [Hmod|Hmod].
  { right. right. left. by repeat split. }
  rewrite rinit_run. cbn [zai_sapi.trace zai_sapi.ini_entries_len]. cbn zeta.
  fold t3.
  destruct (Z.eqb_spec (zai_sapi.to_int (answer t3)) zai_sapi.FAILURE)
    as [Hreq|Hreq].
  { right. right. right. by repeat split. }
  left. by repeat split.
Qed.

(** X10. [zai_sapi_spinup] runs the SAPI, module and request startups in
    this order and stops at the first that fails; it returns true only when
    the INI allocation, PHP's module startup and PHP's request startup all
    succeeded.  When the allocation fails nothing is undone (the SAPI stays
    started) and the recorded length is -1; when the module startup fails the
    SAPI is shut down and the INI entries are freed before it returns; when
    the request startup fails neither the module nor the SAPI is shut
    down. *)
Theorem spinup_outcomes ZTS answer st :
  let r := zai_sapi.zai_sapi_spinup ZTS answer st in
  let t1 := zai_sapi.trace st ++ zai_sapi.sinit_effects ZTS in
  let t2 := t1 ++ zai_sapi.configure_effects
            ++ [zai_sapi.php_module_startup] in
  let t3 := t2 ++ [zai_sapi.php_request_startup] in
  let allocated := zai_sapi.to_ssize_t (answer t1) in
  (r.1 = true
   /\ allocated <> (-1)%Z
   /\ zai_sapi.to_int (answer t2) <> zai_sapi.FAILURE
   /\ zai_sapi.to_int (answer t3) <> zai_sapi.FAILURE
   /\ zai_sapi.ini_entries_len r.2 = allocated
   /\ zai_sapi.trace r.2 = t3 ++ zai_sapi.rinit_effects)
  \/ (r.1 = false
      /\ allocated = (-1)%Z
      /\ zai_sapi.ini_entries_len r.2 = (-1)%Z
      /\ zai_sapi.trace r.2 = t1)
  \/ (r.1 = false
      /\ allocated <> (-1)%Z
      /\ zai_sapi.to_int (answer t2) = zai_sapi.FAILURE
      /\ zai_sapi.ini_entries_len r.2 = allocated
      /\ zai_sapi.trace r.2 = t2 ++ zai_sapi.sshutdown_effects ZTS)
  \/ (r.1 = false
      /\ allocated <> (-1)%Z
      /\ zai_sapi.to_int (answer t2) <> zai_sapi.FAILURE
      /\ zai_sapi.to_int (answer t3) = zai_sapi.FAILURE
      /\ zai_sapi.ini_entries_len r.2 = allocated
      /\ zai_sapi.trace r.2 = t3).
Proof. apply spinup_cases. Qed.

Lemma append_all_cons answer key value rest st :
  zai_sapi.append_all answer ((key, value) :: rest) st
  = let r1 := zai_sapi.zai_sapi_append_system_ini_entry answer key value st in
    let r2 := zai_sapi.append_all answer rest r1.2 in
    (r1.1 :: r2.1, r2.2).
Proof.
  cbn [zai_sapi.append_all]. unfold zai_sapi.bind at 1.
  destruct (zai_sapi.zai_sapi_append_system_ini_entry answer key value st)
    as [appended st1].
  unfold zai_sapi.bind, zai_sapi.ret. cbn [fst snd].
  by destruct (zai_sapi.append_all answer rest st1).
Qed.

(** X11. Over any sequence of [zai_sapi_append_system_ini_entry] calls, the
    recorded length never decreases and grows by at least one for every
    call that returned true; the entries are freed once for every call that
    returned false and never by one that returned true; and when every call
    failed the recorded length is what it was. *)
Theorem append_all_bookkeeping answer entries st :
  let r := zai_sapi.append_all answer entries st in
  length r.1 = length entries
  /\ (zai_sapi.ini_entries_len st
      + Z.of_nat (length (filter (fun b => b = true) r.1))
      <= zai_sapi.ini_entries_len r.2)%Z
  /\ length (filter (fun e => e = zai_sapi.ini_entries_free)
                    (zai_sapi.trace r.2))
     = length (filter (fun e => e = zai_sapi.ini_entries_free)
                      (zai_sapi.trace st))
       + length (filter (fun b => b = false) r.1)
  /\ (Forall (fun b => b = false) r.1 ->
      zai_sapi.ini_entries_len r.2 = zai_sapi.ini_entries_len st).
Proof.
  revert st. induction entries as [|[key value] rest IH]; intros st.
  - cbn. repeat split; lia.
  - rewrite append_all_cons.
    pose proof (append_step answer key value st) as Hstep. cbn zeta in Hstep.
    destruct (zai_sapi.zai_sapi_append_system_ini_entry answer key value st)
      as [appended st1].
    specialize (IH st1). cbn zeta in IH |- *. cbn [fst snd] in *.
    destruct (zai_sapi.append_all answer rest st1) as [others st2].
    cbn [fst snd] in *.
    destruct IH as (Hlen & Hgrow & Hfree & Hsame).
    destruct Hstep as [(-> & Hlt & _ & Htr)|(-> & Heq & Htr)].
    + rewrite filter_cons_True by done. rewrite filter_cons_False by done.
      cbn [length]. rewrite Hfree, Htr, filter_app, length_app.
      rewrite filter_cons_False by done. rewrite filter_nil. cbn [length].
      repeat split; [lia..|].
      intros Hall. by apply Forall_cons in Hall as [? _].
    + rewrite filter_cons_False by done. rewrite filter_cons_True by done.
      cbn [length]. rewrite Hfree, Htr, filter_app, length_app.
      rewrite filter_cons_False by done. rewrite filter_cons_True by done.
      rewrite filter_nil. cbn [length].
      repeat split; [lia..|].
      intros Hall. apply Forall_cons in Hall as [_ Hall].
      rewrite Hsame by done. done.
Qed.

Lemma append_all_bookkeeping_witness :
  let r := zai_sapi.append_all (zai_sapi.realloc_fails_on "bad")
             [("bad", "1"); ("bad", "2")]
             (zai_sapi.zai_sapi_sinit false zai_sapi.php_succeeds
                zai_sapi.initial).2 in
  r.1 = [false; false] /\ zai_sapi.ini_entries_len r.2 = 51%Z.
Proof.
  intros r. split; [reflexivity|].
  destruct (append_all_bookkeeping (zai_sapi.realloc_fails_on "bad")
              [("bad", "1"); ("bad", "2")]
              (zai_sapi.zai_sapi_sinit false zai_sapi.php_succeeds
                 zai_sapi.initial).2) as (_ & _ & _ & Hsame).
  fold r in Hsame. rewrite Hsame; [reflexivity|].
  repeat constructor.
Defined.

(** X12. A failed [zai_sapi_append_system_ini_entry] frees the entries but
    leaves the recorded length as it was, so the next call asks for a
    reallocation at that same length, after the free. *)
Theorem append_after_failure answer k1 v1 k2 v2 st :
  let r1 := zai_sapi.zai_sapi_append_system_ini_entry answer k1 v1 st in
  let r2 := zai_sapi.zai_sapi_append_system_ini_entry answer k2 v2 r1.2 in
  let current := zai_sapi.to_size_t (zai_sapi.ini_entries_len st) in
  r1.1 = false ->
  zai_sapi.ini_entries_len r1.2 = zai_sapi.ini_entries_len st
  /\ zai_sapi.trace r2.2
     = zai_sapi.trace st
       ++ [zai_sapi.ini_entries_realloc_append current k1 v1;
           zai_sapi.ini_entries_free;
           zai_sapi.ini_entries_realloc_append current k2 v2]
       ++ (if r2.1 then [] else [zai_sapi.ini_entries_free]).
Proof.
  intros r1 r2 current Hfail.
  pose proof (append_step answer k1 v1 st) as H1. cbn zeta in H1.
  fold r1 in H1. fold current in H1.
  destruct H1 as [(Htrue & _)|(_ & Hlen & Htr)]; [congruence|].
  split; [done|].
  pose proof (append_step answer k2 v2 r1.2) as H2. cbn zeta in H2.
  fold r2 in H2. rewrite Hlen in H2. fold current in H2.
  destruct H2 as [(-> & _ & _ & ->)|(-> & _ & ->)];
    rewrite Htr, <- !app_assoc; cbn [app]; by rewrite ?app_nil_r.
Qed.

Lemma append_after_failure_witness :
  let st := (zai_sapi.zai_sapi_sinit false zai_sapi.php_succeeds
               zai_sapi.initial).2 in
  let r1 := zai_sapi.zai_sapi_append_system_ini_entry
              (zai_sapi.realloc_fails_on "bad") "bad" "2" st in
  let r2 := zai_sapi.zai_sapi_append_system_ini_entry
              (zai_sapi.realloc_fails_on "bad") "c" "3" r1.2 in
  r2.1 = true
  /\ zai_sapi.trace r2.2
     = zai_sapi.trace st
       ++ [zai_sapi.ini_entries_realloc_append 51 "bad" "2";
           zai_sapi.ini_entries_free;
           zai_sapi.ini_entries_realloc_append 51 "c" "3"].
Proof.
  intros st r1 r2. split; [reflexivity|].
  destruct (append_after_failure (zai_sapi.realloc_fails_on "bad")
              "bad" "2" "c" "3" st) as [_ Htr]; [reflexivity|].
  fold r1 in Htr. fold r2 in Htr. rewrite Htr. reflexivity.
Defined.

(** X13. [zai_sapi_spinup] followed by [zai_sapi_spindown] shuts the SAPI
    down, and frees the INI entries, once, whether spinup succeeded, failed
    in the INI allocation or failed in the request startup; but twice when
    spinup failed in the module startup, where it has already shut the SAPI
    down itself. *)
Theorem spinup_spindown_shutdowns ZTS answer st :
  let up := zai_sapi.zai_sapi_spinup ZTS answer st in
  let down := zai_sapi.zai_sapi_spindown ZTS up.2 in
  let t1 := zai_sapi.trace st ++ zai_sapi.sinit_effects ZTS in
  let t2 := t1 ++ zai_sapi.configure_effects
            ++ [zai_sapi.php_module_startup] in
  let module_failed :=
    bool_decide (zai_sapi.to_ssize_t (answer t1) <> (-1)%Z
                 /\ zai_sapi.to_int (answer t2) = zai_sapi.FAILURE) in
  exists effects,
    zai_sapi.trace down.2 = zai_sapi.trace st ++ effects
    /\ length (filter (fun e => e = zai_sapi.sapi_shutdown) effects)
       = (if module_failed then 2 else 1)
    /\ length (filter (fun e => e = zai_sapi.ini_entries_free) effects)
       = (if module_failed then 2 else 1)
    /\ (up.1 = true -> module_failed = false).
Proof.
  intros up down t1 t2 module_failed.
  assert (Hdown : forall s,
            zai_sapi.trace (zai_sapi.zai_sapi_spindown ZTS s).2
            = zai_sapi.trace s
              ++ [zai_sapi.php_request_shutdown; zai_sapi.php_module_shutdown]
              ++ zai_sapi.sshutdown_effects ZTS).
  { intros s. unfold zai_sapi.zai_sapi_spindown, zai_sapi.bind,
      zai_sapi.zai_sapi_rshutdown, zai_sapi.zai_sapi_mshutdown,
      zai_sapi.perform.
    rewrite sshutdown_run. cbn [snd zai_sapi.trace].
    by rewrite <- !app_assoc. }
  unfold down. rewrite Hdown. unfold module_failed.
  pose proof (spinup_cases ZTS answer st) as Hcases. cbn zeta in Hcases.
  fold up in Hcases. fold t1 in Hcases. fold t2 in Hcases.
  destruct Hcases
    as [(Hup & Ha & Hm & _ & _ & Htr)|[(Hup & Ha & _ & Htr)
        |[(Hup & Ha & Hm & _ & Htr)|(Hup & Ha & Hm & _ & _ & Htr)]]];
    [rewrite bool_decide_eq_false_2 by tauto
    |rewrite bool_decide_eq_false_2 by tauto
    |rewrite bool_decide_eq_true_2 by tauto
    |rewrite bool_decide_eq_false_2 by tauto];
    rewrite Htr; unfold t2, t1; rewrite <- ?app_assoc;
    eexists; (split; [reflexivity|]);
    destruct ZTS; repeat split; try reflexivity; congruence.
Qed.

Lemma spinup_spindown_shutdowns_witness :
  let up := zai_sapi.zai_sapi_spinup true zai_sapi.php_module_fails
              zai_sapi.initial in
  up.1 = false
  /\ length (filter (fun e => e = zai_sapi.sapi_shutdown)
                    (zai_sapi.trace (zai_sapi.zai_sapi_spindown true up.2).2))
     = 2.
Proof.
  intros up. split; [reflexivity|].
  destruct (spinup_spindown_shutdowns true zai_sapi.php_module_fails
              zai_sapi.initial) as (effects & Htr & Hshut & _).
  fold up in Htr. rewrite Htr. cbn [zai_sapi.trace zai_sapi.initial app].
  rewrite Hshut. reflexivity.
Defined.

(** * Registration and dispatch together *)


